(* ===== verification/_CoqProject ===== *)
-Q . S2P
Prelude.v
PyList.v
Grid.v
Random.v
Lattice.v
DfsSpec.v
Generator.v
Game.v
Movement.v
Winnable.v
Render.v
Session.v
