(* ===== verification/Prelude.v ===== *)
(** * Verification of maze_game

    A shallow embedding of [src/maze_game.py], a pygame maze game, and the
    theorems that make it correct.  The program has one source file with
    four parts: the maze generator ([initialize_maze], [generate_maze]),
    the start-up code that places the player and the exit, the main loop
    with its movement controller (held keys become moves of one cell, at a
    delay that shrinks while the key is held), and the drawing functions.

    ** Files and what they model

    - [Prelude] (this file): the [result] type of computations that may
      raise [IndexError], its monad notation, the tactics [result_inv] and
      [case_result], the hint databases [maze] and [maze_rw], and lemmas on
      lists used as stacks and on the size of finite sets.
    - [PyList]: Python's list subscripts, [py_getitem] and [py_setitem],
      with negative indices counting from the end and [IndexError] outside
      the range, and the non-wrapping view [zlookup]/[zinsert].
    - [Grid]: the grid as a list of rows of [cell]s; [grid_get] is
      [maze[i][j]], [grid_set] is [maze[i][j] = c], [initialize_maze] is
      lines 30-33; the specification view [cell_at], [grid_dims] and the
      finite set [opens_of] of open positions.
    - [Random]: Python's [random] module as the interface [RandomSource]
      (a state and [randbelow] with its bound) and [shuffle], the
      Fisher-Yates loop of [random.shuffle]; two executable instances.
    - [Lattice]: [directions], the neighbour [padd], the [midpoint], the
      bounds test [in_bounds] of line 46, nodes (odd-odd cells), passages
      and walks through open cells ([connected]); the tactic [pos_lia].
    - [DfsSpec]: the specification of the generator, the transition system
      [dfs_step] on (set of open cells, stack), with its invariant
      [dfs_inv], progress, the termination measure [dfs_measure] and the
      definition [perfect_maze] of what the generator promises.
    - [Generator]: [generate_maze] (lines 37-54).  [generate_step] is one
      iteration of [while stack:], [scan] the [for ... break ... else],
      [is_free] the guard of line 46 with its short-circuit [and], [carve]
      lines 47-48; [generate_loop] iterates on fuel.
    - [Game]: the constants ([settings]), the module-level variables
      ([game]), the start-up code of lines 128-148 ([startup]) and the
      invariant [game_ok] of the running game.
    - [Movement]: lines 158-196.  [detect_direction] is the [if]/[elif]
      chain over the held keys, [apply_move] the timed move with
      acceleration, [check_win] the win test, [update] the block, [tick]
      the block under its guard, [ticks] successive iterations; [choose]
      and [update_spec] are their specification as total functions.
    - [Winnable]: generator and controller together: which start states
      can be won.
    - [Render]: lines 58-124, every drawing function as the list of the
      pygame calls it makes ([cmd]), in order and with their arguments.
    - [Session]: lines 150-223.  [handle_events] is the event loop,
      [render] the drawing part with the exit after the win message,
      [frame] one iteration of [while True:], [run] the loop over the
      inputs of successive iterations.

    ** What the theorems show

    - Generator: every iteration of the loop is a transition of [dfs_step]
      and keeps the coupling invariant ([generate_step_sim]); the run is a
      run of the specification ([generate_maze_refines]); the loop ends
      and raises nothing for every random source and all dimensions
      [initialize_maze] accepts ([generate_maze_total]); for dimensions of
      at least 3 the result is a perfect maze ([generate_maze_perfect]):
      all nodes open, every open cell a node or a passage between two open
      nodes, everything linked to (1,1), and one passage less than nodes.
      The [for] loop takes the first free direction of the shuffled list
      ([scan_first_free]), and shuffling only rearranges [directions]
      ([generate_step_directions]).
    - Specification: the invariant holds in every reachable state
      ([dfs_reachable_inv]), the system never blocks ([dfs_progress]) and
      every run is bounded by the measure ([dfs_nsteps_bound]).
    - Start-up: it succeeds and establishes [game_ok] ([startup_ok]); it
      raises exactly for widths or heights below 2 ([startup_raises_iff]).
    - Movement: under [game_ok] the update raises nothing, never moves
      the player into a wall and never changes the maze ([update_safe],
      [ticks_safe]); it equals its specification ([ticks_refine]); what
      it does when a move is due, when it is not, and when no direction
      is chosen ([update_moves], [update_waits], [update_blocked]); the
      order of the keys ([choose_priority]); the win flag
      ([update_win_iff]); the delay ([update_delay_nonincreasing],
      [accelerate_iter]); the player only walks through open cells
      ([ticks_connected]).
    - Winning: the game can be won when the width or the height is odd
      ([startup_winnable], [session_winnable]) and cannot when both are
      even ([even_dims_unwinnable]).
    - Main loop: a quit event exits at once ([frame_quit]); the start
      screen ([frame_awaiting], [frame_first_key]); the two ways out of
      the program ([frame_exit]); any number of iterations is safe and
      follows the phases of the specification ([run_safe]).
    - Rendering: what [draw_maze] draws ([draw_maze_spec]), that its
      squares tile the screen ([draw_maze_tiles]), that every rectangle is
      on the screen ([draw_scene_inside]) and that texts are centred
      ([display_text_with_shadow_centered]).
    - Grid: the error path of [initialize_maze], the round trip of the
      subscripts and that assignment keeps the grid rectangular.

    ** Bounds and fuel

    Integers are [Z]: Python's integers are unbounded, so there is no
    overflow to model; [//] is [Z.div].  The only loop that is not a
    [for] over a list is [while stack:], modelled on fuel.  The fuel
    [gen_fuel width height = 2 * ((height - 2) * (width - 2) + 1)] is
    enough for every run: the measure [dfs_measure], twice the number of
    cells not yet open plus the height of the stack, decreases at every
    iteration and is at most [gen_fuel] at the start, and the result is
    the same for any larger fuel ([generate_maze_fuel_irrelevant]).  The
    main loop runs for as long as it is given inputs: [run] is a fold
    over the list of the inputs of the iterations.

    ** Not modelled

    - Lines 20-26 ([pygame.init], the window, its caption, the font
      objects): calls into the library with no logic of the program.
    - The pixels pygame draws: a drawing call is recorded with its
      arguments, not interpreted.  The size of a rendered text is a
      parameter of the model ([TextMetrics]).
    - The generator of Python's [random] module: the theorems hold for
      every [RandomSource]; [shuffle] is modelled from the documented
      algorithm of [random.shuffle], not from this repository.
    - Time: [pygame.time.get_ticks()] is an input of each iteration, and
      [pygame.time.wait(2000)] is recorded as the call [Wait 2000]. *)

From stdpp Require Import base tactics option list numbers gmap.

(** ** Exceptions and fallible computations

    The only exception the modelled code can raise is Python's
    [IndexError] (a list subscript out of range).  A computation that may
    raise is a value of [result]. *)

Inductive exn : Set :=
| IndexError.

Inductive result (A : Type) : Type :=
| Ok (a : A)
| Raise (e : exn).
Arguments Ok {A} a.
Arguments Raise {A} e.

#[export] Instance exn_eq_dec : EqDecision exn.
Proof. solve_decision. Defined.

#[export] Instance result_eq_dec `{EqDecision A} : EqDecision (result A).
Proof. solve_decision. Defined.

#[export] Instance result_ret : MRet result := λ A, Ok.

#[export] Instance result_bind : MBind result :=
  λ A B f m, match m with Ok a => f a | Raise e => Raise e end.

#[export] Instance result_fmap : FMap result :=
  λ A B f m, match m with Ok a => Ok (f a) | Raise e => Raise e end.

Definition is_Ok {A} (m : result A) : Prop := ∃ a, m = Ok a.

Definition of_option {A} (o : option A) : result A :=
  match o with Some a => Ok a | None => Raise IndexError end.

#[export] Instance is_Ok_dec {A} (m : result A) : Decision (is_Ok m).
Proof.
  destruct m as [a|e]; [left; by exists a | right; by intros [a ?]].
Defined.

(** ** Hint database and tactics of the development *)

Create HintDb maze discriminated.
Create Rewrite HintDb maze_rw.

(** [result_inv] inverts hypotheses of the shape [m ≫= f = Ok b] and
    [Ok a = Ok b]; [case_result] splits on the next fallible call. *)

Lemma bind_Ok {A B} (f : A → result B) (m : result A) (b : B) :
  m ≫= f = Ok b ↔ ∃ a, m = Ok a ∧ f a = Ok b.
Proof.
  destruct m as [a|e]; simpl; split; [by exists a | by intros (? & [= <-] & ?) | done |].
  by intros (? & ? & ?).
Qed.

Lemma bind_Ok_l {A B} (f : A → result B) (a : A) : Ok a ≫= f = f a.
Proof. done. Qed.

Lemma bind_Raise_l {A B} (f : A → result B) (e : exn) :
  Raise e ≫= f = Raise e.
Proof. done. Qed.

Lemma fmap_Ok {A B} (f : A → B) (m : result A) (b : B) :
  f <$> m = Ok b ↔ ∃ a, m = Ok a ∧ b = f a.
Proof.
  destruct m as [a|e]; simpl; split; [intros [= <-]; by exists a | | done |].
  - by intros (? & [= <-] & ->).
  - by intros (? & ? & ?).
Qed.

Lemma of_option_Ok {A} (o : option A) (a : A) :
  of_option o = Ok a ↔ o = Some a.
Proof. destruct o; simpl; split; by intros [= ->]. Qed.

Lemma is_Ok_Ok {A} (a : A) : is_Ok (Ok a).
Proof. by exists a. Qed.

Lemma of_option_is_Ok {A} (o : option A) : is_Ok (of_option o) ↔ is_Some o.
Proof. destruct o; simpl; split; intros [? ?]; by eauto using is_Ok_Ok. Qed.

Lemma not_is_Ok_Raise {A} (e : exn) : ¬ is_Ok (@Raise A e).
Proof. by intros [? ?]. Qed.

#[export] Hint Resolve is_Ok_Ok : maze.
#[export] Hint Rewrite @bind_Ok_l @bind_Raise_l : maze_rw.

Ltac result_inv :=
  repeat match goal with
  | H : Ok _ = Ok _ |- _ => injection H as H; try subst
  | H : Raise _ = Ok _ |- _ => discriminate H
  | H : Ok _ = Raise _ |- _ => discriminate H
  | H : _ ≫= _ = Ok _ |- _ => apply bind_Ok in H as (? & ? & H)
  | H : _ <$> _ = Ok _ |- _ => apply fmap_Ok in H as (? & H & ?)
  | H : of_option _ = Ok _ |- _ => apply of_option_Ok in H
  | H : is_Ok (Raise _) |- _ => destruct (not_is_Ok_Raise _ H)
  end.

Ltac case_result :=
  match goal with
  | |- context [ @mbind result _ _ _ _ ?m ] =>
      let E := fresh "E" in destruct m eqn:E; simpl
  end.

(** ** Lists used as stacks

    A Python list used as a stack grows and shrinks at its end:
    [stack[-1]] is [last], [stack.append(x)] is [(.++ [x])] and
    [stack.pop()] is [removelast]. *)

Section stack.
Context {A : Type}.
Implicit Types (l : list A) (x y : A).

Lemma last_removelast l x : last l = Some x → l = removelast l ++ [x].
Proof.
  intros [l' ->]%last_Some. by rewrite removelast_last.
Qed.

Lemma elem_of_removelast l x : x ∈ removelast l → x ∈ l.
Proof.
  destruct (last l) as [y|] eqn:Hl.
  - rewrite (last_removelast l y Hl) at 2. set_solver.
  - apply last_None in Hl as ->. by simpl.
Qed.

Lemma elem_of_last_or_removelast l x y :
  last l = Some y → x ∈ l → x = y ∨ x ∈ removelast l.
Proof. intros Hl. rewrite (last_removelast l y Hl) at 1. set_solver. Qed.

Lemma last_elem_of l x : last l = Some x → x ∈ l.
Proof. intros Hl. rewrite (last_removelast l x Hl). set_solver. Qed.

Lemma length_removelast l x : last l = Some x → length l = S (length (removelast l)).
Proof.
  intros Hl. rewrite (last_removelast l x Hl) at 1. rewrite length_app. simpl. lia.
Qed.

End stack.

(** ** Finite sets: counting under insertion *)

Section sets.
Context `{Countable A}.
Implicit Types (X Y : gset A) (x : A) (l : list A).

Lemma size_filter_insert (P : A → Prop) `{!∀ x, Decision (P x)} X x :
  x ∉ X →
  size (filter P ({[x]} ∪ X)) =
  if decide (P x) then S (size (filter P X)) else size (filter P X).
Proof.
  intros Hx. rewrite filter_union_L, filter_singleton_L; [|apply _..].
  destruct (decide (P x)).
  - rewrite size_union, size_singleton; [done | set_solver].
  - by rewrite union_empty_l_L.
Qed.

Lemma size_insert_notin X x : x ∉ X → size ({[x]} ∪ X) = S (size X).
Proof. intros. rewrite size_union, size_singleton; [done | set_solver]. Qed.

Lemma size_list_to_set_le l : size (list_to_set (C := gset A) l) ≤ length l.
Proof.
  induction l as [|x l IH]; simpl; [done|].
  rewrite size_union_alt, size_singleton.
  assert (list_to_set l ∖ {[x]} ⊆ (list_to_set (C := gset A) l)) as Hsub by set_solver.
  apply subseteq_size in Hsub. simpl in *. lia.
Qed.

End sets.
