(* ===== verification/PyList.v ===== *)
(** * Python list subscripts

    The semantics of [l[i]] and [l[i] = x] on Python lists: a negative
    index counts from the end, and an index outside [-len, len) raises
    [IndexError]. *)

From S2P Require Import Prelude.
From stdpp Require Import base tactics option list numbers.

#[local] Open Scope Z_scope.

Definition py_index (len : nat) (i : Z) : option nat :=
  if decide (0 ≤ i < Z.of_nat len) then Some (Z.to_nat i)
  else if decide (- Z.of_nat len ≤ i < 0) then Some (Z.to_nat (i + Z.of_nat len))
  else None.

Definition py_getitem {A} (l : list A) (i : Z) : result A :=
  of_option (py_index (length l) i ≫= (l !!.)).

Definition py_setitem {A} (l : list A) (i : Z) (x : A) : result (list A) :=
  of_option ((λ n, <[n:=x]> l) <$> py_index (length l) i).

Lemma py_index_lt len i n : py_index len i = Some n → (n < len)%nat.
Proof. unfold py_index. repeat case_decide; intros; simplify_eq; lia. Qed.

Lemma py_index_nonneg len i :
  0 ≤ i → py_index len i = if decide (i < Z.of_nat len) then Some (Z.to_nat i) else None.
Proof. intros. unfold py_index. repeat case_decide; done || lia. Qed.

Lemma py_getitem_nonneg {A} (l : list A) i :
  0 ≤ i → py_getitem l i = of_option (l !! Z.to_nat i).
Proof.
  intros. unfold py_getitem. rewrite py_index_nonneg by done.
  case_decide; [done|]. by rewrite lookup_ge_None_2 by lia.
Qed.

(** ** The non-wrapping view

    [zlookup] and [zinsert] are lookup and update at an integer index that
    is known not to be negative; the specifications are stated with them,
    and the lemmas below relate them to the Python operations. *)

Definition zlookup {A} (l : list A) (i : Z) : option A :=
  if decide (0 ≤ i) then l !! Z.to_nat i else None.

Definition zinsert {A} (l : list A) (i : Z) (x : A) : list A :=
  if decide (0 ≤ i) then <[Z.to_nat i:=x]> l else l.

Section subscripts.
Context {A : Type}.
Implicit Types (l : list A) (i j : Z) (x y : A).

Lemma zlookup_is_Some l i : is_Some (zlookup l i) ↔ 0 ≤ i < Z.of_nat (length l).
Proof.
  unfold zlookup. case_decide; [rewrite lookup_lt_is_Some; lia|].
  split; [by intros [? ?] | lia].
Qed.

Lemma zlookup_Some_lt l i x : zlookup l i = Some x → 0 ≤ i < Z.of_nat (length l).
Proof. intros. apply zlookup_is_Some. by eexists. Qed.

Lemma zlookup_None l i : zlookup l i = None ↔ i < 0 ∨ Z.of_nat (length l) ≤ i.
Proof. rewrite eq_None_not_Some, zlookup_is_Some. lia. Qed.

Lemma length_zinsert l i x : length (zinsert l i x) = length l.
Proof. unfold zinsert. case_decide; [apply length_insert | done]. Qed.

Lemma zlookup_zinsert l i j x :
  zlookup (zinsert l i x) j =
  if decide (i = j ∧ 0 ≤ i < Z.of_nat (length l)) then Some x else zlookup l j.
Proof.
  unfold zlookup, zinsert. repeat case_decide; try done; try lia.
  - destruct_and!; subst. rewrite list_lookup_insert_eq; [done | lia].
  - destruct (decide (i = j)) as [->|].
    + rewrite list_insert_ge by lia. done.
    + rewrite list_lookup_insert_ne; [done | lia].
Qed.

Lemma zlookup_zinsert_eq l i x :
  0 ≤ i < Z.of_nat (length l) → zlookup (zinsert l i x) i = Some x.
Proof. intros. rewrite zlookup_zinsert. by rewrite decide_True. Qed.

Lemma zlookup_zinsert_ne l i j x : i ≠ j → zlookup (zinsert l i x) j = zlookup l j.
Proof. intros. rewrite zlookup_zinsert. by rewrite decide_False by (by intros [? ?]). Qed.

Lemma py_getitem_zlookup l i : 0 ≤ i → py_getitem l i = of_option (zlookup l i).
Proof. intros. rewrite py_getitem_nonneg by done. unfold zlookup. by rewrite decide_True. Qed.

Lemma py_setitem_zinsert l i x :
  0 ≤ i →
  py_setitem l i x =
  if decide (i < Z.of_nat (length l)) then Ok (zinsert l i x) else Raise IndexError.
Proof.
  intros. unfold py_setitem, zinsert. rewrite py_index_nonneg by done.
  case_decide; [|done]. simpl. by rewrite decide_True by done.
Qed.

(** A negative index reads from the end of the list. *)
Lemma py_getitem_neg l i :
  - Z.of_nat (length l) ≤ i < 0 → py_getitem l i = of_option (zlookup l (i + Z.of_nat (length l))).
Proof.
  intros. unfold py_getitem, py_index, zlookup.
  rewrite decide_False, !decide_True by lia. done.
Qed.

(** Outside [-len, len) every subscript raises. *)
Lemma py_getitem_out l i :
  i < - Z.of_nat (length l) ∨ Z.of_nat (length l) ≤ i → py_getitem l i = Raise IndexError.
Proof. intros. unfold py_getitem, py_index. by rewrite !decide_False by lia. Qed.

Lemma py_setitem_out l i x :
  i < - Z.of_nat (length l) ∨ Z.of_nat (length l) ≤ i → py_setitem l i x = Raise IndexError.
Proof. intros. unfold py_setitem, py_index. by rewrite !decide_False by lia. Qed.

(** What a subscript that does not raise did, wrap-around included. *)
Lemma py_getitem_Ok l i x :
  py_getitem l i = Ok x ↔ ∃ n, py_index (length l) i = Some n ∧ l !! n = Some x.
Proof.
  unfold py_getitem. rewrite of_option_Ok.
  destruct (py_index (length l) i) as [n|]; simpl; naive_solver.
Qed.

Lemma py_setitem_Ok l i x l' :
  py_setitem l i x = Ok l' ↔ ∃ n, py_index (length l) i = Some n ∧ l' = <[n:=x]> l.
Proof.
  unfold py_setitem. rewrite of_option_Ok.
  destruct (py_index (length l) i) as [n|]; simpl; naive_solver.
Qed.

Lemma py_setitem_length l i x l' : py_setitem l i x = Ok l' → length l' = length l.
Proof. intros (n & _ & ->)%py_setitem_Ok. apply length_insert. Qed.

(** [l[i] = x] followed by [l[i]] reads [x], for every index in range. *)
Lemma py_getitem_setitem l i x l' : py_setitem l i x = Ok l' → py_getitem l' i = Ok x.
Proof.
  intros (n & Hn & ->)%py_setitem_Ok. apply py_getitem_Ok. exists n.
  rewrite length_insert. split; [done|].
  apply list_lookup_insert_eq. by eapply py_index_lt.
Qed.

End subscripts.

#[export] Hint Rewrite @length_zinsert : maze_rw.
