(* ===== verification/Grid.v ===== *)
(** * The maze grid

    The grid of [src/maze_game.py]: a Python list of rows, each row a list
    of one-character strings, ["#"] for a wall and [" "] for a passage.
    This file holds the cell type, the two subscript forms the program
    uses ([maze[i][j]] and [maze[i][j] = c]), [initialize_maze], and the
    specification view of a grid: its dimensions, the cell at a position
    and the finite set of its open positions. *)

From S2P Require Import Prelude PyList.
From stdpp Require Import base tactics option list numbers gmap.

#[local] Open Scope Z_scope.

(** ["#"] is [Wall], [" "] is [Open]: no other string is ever stored. *)
Inductive cell : Set :=
| Wall
| Open.

#[export] Instance cell_eq_dec : EqDecision cell.
Proof. solve_decision. Defined.

Abbreviation grid := (list (list cell)).
Abbreviation pos := (Z * Z)%type.

(** [maze[i][j]] *)
Definition grid_get (maze : grid) (i j : Z) : result cell :=
  row ← py_getitem maze i; py_getitem row j.

(** [maze[i][j] = c]: the row object [maze[i]] is fetched, then updated in
    place.  The rows are distinct objects (the inner comprehension of
    [initialize_maze] runs once per row), so writing the new row back at
    the same index is the same mutation. *)
Definition grid_set (maze : grid) (i j : Z) (c : cell) : result grid :=
  row ← py_getitem maze i;
  row' ← py_setitem row j c;
  py_setitem maze i row'.

Definition initialize_maze (width height : Z) : result grid :=
  let maze := replicate (Z.to_nat height) (replicate (Z.to_nat width) Wall) in
  grid_set maze 1 1 Open.

(** ** Specification view *)

Definition cell_at (m : grid) (p : pos) : option cell :=
  row ← zlookup m p.1; zlookup row p.2.

Definition grid_update (m : grid) (p : pos) (c : cell) : grid :=
  match zlookup m p.1 with
  | Some row => zinsert m p.1 (zinsert row p.2 c)
  | None => m
  end.

Definition grid_dims (m : grid) (h w : Z) : Prop :=
  Z.of_nat (length m) = h ∧ Forall (λ row, Z.of_nat (length row) = w) m.

#[export] Instance grid_dims_dec m h w : Decision (grid_dims m h w).
Proof. unfold grid_dims. apply _. Defined.

Definition positions (m : grid) : list pos :=
  mjoin (imap (λ i row, imap (λ j _, (Z.of_nat i, Z.of_nat j)) row) m).

Definition opens_of (m : grid) : gset pos :=
  list_to_set (filter (λ p, cell_at m p = Some Open) (positions m)).

(** ** Lemmas: subscripts against the specification view *)

Section grid_lemmas.
Implicit Types (m : grid) (p q : pos) (c : cell) (i j h w : Z).

Lemma cell_at_Some m p c :
  cell_at m p = Some c ↔ ∃ row, zlookup m p.1 = Some row ∧ zlookup row p.2 = Some c.
Proof.
  unfold cell_at. destruct (zlookup m p.1) as [row|]; simpl; [|naive_solver].
  split; [by exists row | by intros (? & [= <-] & ?)].
Qed.

Lemma grid_get_cell_at m i j :
  0 ≤ i → 0 ≤ j → grid_get m i j = of_option (cell_at m (i, j)).
Proof.
  intros. unfold grid_get, cell_at. rewrite py_getitem_zlookup by done. simpl.
  destruct (zlookup m i); simpl; [by apply py_getitem_zlookup | done].
Qed.

Lemma grid_set_update m i j c :
  0 ≤ i → 0 ≤ j →
  grid_set m i j c =
  if cell_at m (i, j) is Some _ then Ok (grid_update m (i, j) c) else Raise IndexError.
Proof.
  intros. unfold grid_set, cell_at, grid_update. rewrite py_getitem_zlookup by done.
  simpl. destruct (zlookup m i) as [row|] eqn:Hrow; simpl; [|done].
  rewrite py_setitem_zinsert by done. apply zlookup_Some_lt in Hrow.
  destruct (zlookup row j) eqn:Hj; simpl.
  - apply zlookup_Some_lt in Hj. rewrite decide_True by lia. simpl.
    rewrite py_setitem_zinsert by done. by rewrite decide_True by lia.
  - apply zlookup_None in Hj. by rewrite decide_False by lia.
Qed.

Lemma cell_at_update m p q c :
  cell_at (grid_update m p c) q =
  if decide (p = q) then (λ _, c) <$> cell_at m p else cell_at m q.
Proof.
  unfold grid_update, cell_at. destruct p as [i j], q as [i' j']; simpl.
  destruct (zlookup m i) as [row|] eqn:Hrow; simpl.
  - rewrite zlookup_zinsert. pose proof (zlookup_Some_lt _ _ _ Hrow).
    destruct (decide (i = i')) as [<-|]; [|by rewrite !decide_False by (intros ?; naive_solver)].
    rewrite decide_True, Hrow by done. simpl. rewrite zlookup_zinsert.
    destruct (decide (j = j')) as [<-|]; [|by rewrite !decide_False by (intros ?; naive_solver)].
    rewrite (decide_True (P := (_, _) = _)) by done.
    destruct (zlookup row j) eqn:Hj; simpl.
    + apply zlookup_Some_lt in Hj. by rewrite decide_True.
    + apply zlookup_None in Hj. by rewrite decide_False by lia.
  - case_decide; simplify_eq; by rewrite ?Hrow.
Qed.

Lemma cell_at_update_eq m p c :
  is_Some (cell_at m p) → cell_at (grid_update m p c) p = Some c.
Proof. intros [? Hp]. by rewrite cell_at_update, decide_True, Hp. Qed.

Lemma cell_at_update_ne m p q c :
  p ≠ q → cell_at (grid_update m p c) q = cell_at m q.
Proof. intros. by rewrite cell_at_update, decide_False. Qed.

Lemma cell_at_nonneg m p : is_Some (cell_at m p) → 0 ≤ p.1 ∧ 0 ≤ p.2.
Proof.
  intros [c (row & Hrow & Hc)%cell_at_Some].
  apply zlookup_Some_lt in Hrow, Hc. lia.
Qed.

Lemma cell_at_update_is_Some m p q c :
  is_Some (cell_at (grid_update m p c) q) ↔ is_Some (cell_at m q).
Proof.
  rewrite cell_at_update. case_decide; [subst|done].
  by rewrite fmap_is_Some.
Qed.

(** A write inside the grid succeeds and is [grid_update]; a read there is
    [cell_at]. *)
Lemma grid_set_Ok m p c :
  is_Some (cell_at m p) → grid_set m p.1 p.2 c = Ok (grid_update m p c).
Proof.
  intros Hp. destruct (cell_at_nonneg _ _ Hp). rewrite grid_set_update by done.
  rewrite <-surjective_pairing. by destruct Hp as [? ->].
Qed.

Lemma grid_get_Ok m p c : cell_at m p = Some c → grid_get m p.1 p.2 = Ok c.
Proof.
  intros Hp. destruct (cell_at_nonneg m p) as [? ?]; [by eexists|].
  rewrite grid_get_cell_at by done. by rewrite <-surjective_pairing, Hp.
Qed.

(** ** Dimensions *)

Lemma grid_dims_cell_at m h w p :
  grid_dims m h w → (is_Some (cell_at m p) ↔ 0 ≤ p.1 < h ∧ 0 ≤ p.2 < w).
Proof.
  intros [<- Hw]. rewrite Forall_lookup in Hw. unfold cell_at. split.
  - intros [c Hc]. destruct (zlookup m p.1) as [row|] eqn:Hrow; [|done].
    apply zlookup_Some_lt in Hc. pose proof (zlookup_Some_lt _ _ _ Hrow).
    unfold zlookup in Hrow. case_decide; [|done]. apply Hw in Hrow. lia.
  - intros [Hi Hj]. destruct (proj2 (zlookup_is_Some m p.1) Hi) as [row Hrow].
    rewrite Hrow. simpl. apply zlookup_is_Some.
    unfold zlookup in Hrow. case_decide; [|done]. apply Hw in Hrow. lia.
Qed.

Lemma grid_dims_update m h w p c : grid_dims m h w → grid_dims (grid_update m p c) h w.
Proof.
  intros [Hh Hw]. unfold grid_update.
  destruct (zlookup m p.1) as [row|] eqn:Hrow; [|done].
  split; [by rewrite length_zinsert|]. unfold zinsert at 1. case_decide; [|done].
  apply Forall_insert; [done|]. rewrite length_zinsert.
  unfold zlookup in Hrow. rewrite decide_True in Hrow by done.
  rewrite Forall_lookup in Hw. by eapply Hw.
Qed.

Lemma grid_dims_replicate h w c :
  0 ≤ h → 0 ≤ w →
  grid_dims (replicate (Z.to_nat h) (replicate (Z.to_nat w) c)) h w.
Proof.
  intros. split; [rewrite length_replicate; lia|].
  apply Forall_replicate. rewrite length_replicate. lia.
Qed.

Lemma cell_at_replicate h w c p :
  cell_at (replicate (Z.to_nat h) (replicate (Z.to_nat w) c)) p =
  if decide (0 ≤ p.1 < h ∧ 0 ≤ p.2 < w) then Some c else None.
Proof.
  unfold cell_at, zlookup.
  destruct (decide (0 ≤ p.1 < h ∧ 0 ≤ p.2 < w)) as [[? ?]|Hp].
  - rewrite !decide_True by lia.
    rewrite lookup_replicate_2 by lia. simpl.
    rewrite decide_True by lia. by rewrite lookup_replicate_2 by lia.
  - destruct (decide (0 ≤ p.1)); [|done].
    destruct (decide (p.1 < h)).
    + rewrite lookup_replicate_2 by lia. simpl. destruct (decide (0 ≤ p.2)); [|done].
      apply lookup_replicate_None. lia.
    + by rewrite (proj1 (lookup_replicate_None _ _ _)) by lia.
Qed.

(** ** The set of open positions *)

Lemma elem_of_positions m p : p ∈ positions m ↔ is_Some (cell_at m p).
Proof.
  unfold positions. rewrite list_elem_of_join. split.
  - intros (l & Hp & Hl). apply elem_of_lookup_imap in Hl as (i & row & -> & Hrow).
    apply elem_of_lookup_imap in Hp as (j & c & -> & Hc). exists c.
    apply cell_at_Some. exists row. simpl. unfold zlookup.
    by rewrite !decide_True, !Nat2Z.id by lia.
  - intros [c (row & Hrow & Hc)%cell_at_Some].
    pose proof (zlookup_Some_lt _ _ _ Hrow). pose proof (zlookup_Some_lt _ _ _ Hc).
    unfold zlookup in Hrow, Hc.
    rewrite decide_True in Hrow by lia. rewrite decide_True in Hc by lia.
    eexists. split; [|apply elem_of_lookup_imap; by exists (Z.to_nat p.1), row].
    apply elem_of_lookup_imap. exists (Z.to_nat p.2), c. split; [|done].
    destruct p; simpl in *. f_equal; lia.
Qed.

Lemma elem_of_opens_of m p : p ∈ opens_of m ↔ cell_at m p = Some Open.
Proof.
  unfold opens_of. rewrite elem_of_list_to_set, list_elem_of_filter, elem_of_positions.
  split; [by intros [? ?] | intros Hp; by rewrite Hp].
Qed.

Lemma opens_of_update_Open m p :
  is_Some (cell_at m p) → opens_of (grid_update m p Open) = {[p]} ∪ opens_of m.
Proof.
  intros Hp. apply set_eq. intros q.
  rewrite elem_of_union, elem_of_singleton, !elem_of_opens_of, cell_at_update.
  case_decide as Hq; [subst|naive_solver].
  destruct Hp as [c ->]. naive_solver.
Qed.

Lemma opens_of_replicate_Wall h w :
  opens_of (replicate (Z.to_nat h) (replicate (Z.to_nat w) Wall)) = ∅.
Proof.
  apply set_eq. intros q. rewrite elem_of_opens_of, cell_at_replicate.
  rewrite elem_of_empty. by case_decide.
Qed.



End grid_lemmas.

(** ** [initialize_maze] *)

Section initialize.
Implicit Types (width height : Z).

(** The all-wall grid of [initialize_maze], before [maze[1][1]] is opened. *)
Definition walls_only width height : grid :=
  replicate (Z.to_nat height) (replicate (Z.to_nat width) Wall).

Lemma initialize_maze_unfold width height :
  initialize_maze width height =
  if decide (2 ≤ width ∧ 2 ≤ height)
  then Ok (grid_update (walls_only width height) (1, 1) Open)
  else Raise IndexError.
Proof.
  unfold initialize_maze. rewrite grid_set_update by done. fold (walls_only width height).
  unfold walls_only. rewrite cell_at_replicate. simpl.
  destruct (decide (2 ≤ width ∧ 2 ≤ height)).
  - by rewrite decide_True by lia.
  - by rewrite decide_False by lia.
Qed.

Lemma initialize_maze_dims width height m :
  initialize_maze width height = Ok m → grid_dims m height width.
Proof.
  rewrite initialize_maze_unfold. case_decide; [|done]. intros [= <-].
  apply grid_dims_update, grid_dims_replicate; lia.
Qed.

Lemma initialize_maze_opens width height m :
  initialize_maze width height = Ok m → opens_of m = {[(1, 1)]}.
Proof.
  rewrite initialize_maze_unfold. case_decide; [|done]. intros [= <-].
  unfold walls_only. rewrite opens_of_update_Open, opens_of_replicate_Wall.
  - set_solver.
  - rewrite cell_at_replicate. simpl. by rewrite decide_True by lia.
Qed.

(** C33: error path.  [initialize_maze] raises [IndexError] exactly when
    the width or the height is below 2, where [maze[1][1]] does not exist;
    the program checks neither. *)
Theorem initialize_maze_raises width height :
  initialize_maze width height = Raise IndexError ↔ width < 2 ∨ height < 2.
Proof.
  rewrite initialize_maze_unfold. case_decide; split; (done || lia).
Qed.

End initialize.

(** ** Witnesses: a 2 by 2 grid written through a negative row subscript *)


