(* ===== verification/Random.v ===== *)
(** * The random source and [random.shuffle]

    [generate_maze] calls [random.shuffle(directions)] once per iteration
    of its loop.  The generator of Python's [random] module is not part of
    the repository: it is modelled by the interface [RandomSource] (a state
    and a [randbelow] operation that answers below its bound), and
    [shuffle] is the Fisher-Yates loop of [random.shuffle] written against
    that interface.  Every theorem about the maze generator holds for every
    instance; the two instances below make the model executable. *)

From S2P Require Import Prelude.
From stdpp Require Import base tactics option list numbers.

(** ** Interface *)

Class RandomSource (R : Type) : Type := {
  randbelow : R → nat → nat * R;
  randbelow_lt (r : R) (n : nat) : 0 < n → (randbelow r n).1 < n;
}.

(** ** [random.shuffle]

    [for i in reversed(range(1, len(x))): j = randbelow(i + 1);
     x[i], x[j] = x[j], x[i]] *)

Definition swap {A} (x : list A) (i j : nat) : list A :=
  match x !! i, x !! j with
  | Some a, Some b => <[j:=a]> (<[i:=b]> x)
  | _, _ => x
  end.

Fixpoint shuffle_loop {A} `{RandomSource R} (i : nat) (x : list A) (r : R) : list A * R :=
  match i with
  | 0 => (x, r)
  | S i' => let '(j, r') := randbelow r (S i) in shuffle_loop i' (swap x i j) r'
  end.

Definition shuffle {A} `{RandomSource R} (x : list A) (r : R) : list A * R :=
  shuffle_loop (length x - 1) x r.

(** ** Instances *)

(** A source that replays a recorded list of draws (reduced below the
    bound), and answers 0 once the record is exhausted. *)
Definition replay_randbelow (r : list nat) (n : nat) : nat * list nat :=
  match r with
  | [] => (0, [])
  | k :: r' => (k `mod` n, r')
  end.

#[export, refine] Instance replay_source : RandomSource (list nat) :=
  {| randbelow := replay_randbelow |}.
Proof.
  intros [|k r] n Hn; simpl; [done|]. apply Nat.mod_upper_bound. lia.
Defined.

(** A linear congruential generator on binary naturals. *)
Definition lcg_randbelow (s : N) (n : nat) : nat * N :=
  let s' := ((1103515245 * s + 12345) `mod` 2147483648)%N in
  (N.to_nat (s' `mod` N.of_nat n)%N, s').

#[export, refine] Instance lcg_source : RandomSource N :=
  {| randbelow := lcg_randbelow |}.
Proof.
  intros s n Hn. unfold lcg_randbelow. simpl.
  pose proof (N.mod_upper_bound ((1103515245 * s + 12345) `mod` 2147483648)
    (N.of_nat n)). lia.
Defined.

(** ** Lemmas *)

Section shuffle_lemmas.
Context {A : Type} `{RandomSource R}.
Implicit Types (x : list A) (r : R) (i j : nat).

Lemma swap_perm x i j : swap x i j ≡ₚ x.
Proof.
  unfold swap. destruct (x !! i) as [a|] eqn:Hi; [|done].
  destruct (x !! j) as [b|] eqn:Hj; [|done].
  by apply Permutation_insert_swap.
Qed.

Lemma shuffle_loop_perm i x r : (shuffle_loop i x r).1 ≡ₚ x.
Proof.
  revert x r. induction i as [|i IH]; intros x r; simpl; [done|].
  destruct (randbelow r (S (S i))) as [j r']. by rewrite IH, swap_perm.
Qed.

(** [random.shuffle] rearranges its argument: nothing is lost or added. *)
Lemma shuffle_perm x r : (shuffle x r).1 ≡ₚ x.
Proof. apply shuffle_loop_perm. Qed.

Lemma shuffle_length x r : length (shuffle x r).1 = length x.
Proof. by rewrite shuffle_perm. Qed.

Lemma shuffle_elem_of x r (a : A) : a ∈ (shuffle x r).1 ↔ a ∈ x.
Proof. by rewrite shuffle_perm. Qed.

End shuffle_lemmas.
