(* ===== verification/Lattice.v ===== *)
(** * The cell lattice

    Vocabulary shared by the maze generator and its specification: the four
    carving directions of [generate_maze], the neighbour and the midpoint
    the loop body computes, its bounds test, the odd-odd positions (the
    nodes of the maze), and walks through open cells. *)

From S2P Require Import Prelude Grid.
From stdpp Require Import base tactics option list numbers gmap relations.

#[local] Open Scope Z_scope.

(** [directions = [(-2, 0), (2, 0), (0, -2), (0, 2)]] *)
Definition directions : list pos := [(-2, 0); (2, 0); (0, -2); (0, 2)].

(** [nx, ny = x + dx, y + dy] *)
Definition padd (p d : pos) : pos := (p.1 + d.1, p.2 + d.2).

(** [(x + dx // 2, y + dy // 2)]: Python's [//] rounds down, as [Z.div]. *)
Definition midpoint (p d : pos) : pos := (p.1 + d.1 `div` 2, p.2 + d.2 `div` 2).

(** [1 <= nx < height - 1 and 1 <= ny < width - 1] *)
Definition in_bounds (h w : Z) (p : pos) : Prop :=
  (1 ≤ p.1 ∧ p.1 < h - 1) ∧ (1 ≤ p.2 ∧ p.2 < w - 1).

#[export] Instance in_bounds_dec h w p : Decision (in_bounds h w p).
Proof. unfold in_bounds. apply _. Defined.

(** The nodes of the maze are the positions with two odd coordinates. *)
Definition node (p : pos) : Prop := p.1 `mod` 2 = 1 ∧ p.2 `mod` 2 = 1.

#[export] Instance node_dec p : Decision (node p).
Proof. unfold node. apply _. Defined.

(** An open cell between two open nodes, in a column or in a row. *)
Definition passage (o : gset pos) (p : pos) : Prop :=
  (p.1 `mod` 2 = 0 ∧ p.2 `mod` 2 = 1 ∧ (p.1 - 1, p.2) ∈ o ∧ (p.1 + 1, p.2) ∈ o) ∨
  (p.1 `mod` 2 = 1 ∧ p.2 `mod` 2 = 0 ∧ (p.1, p.2 - 1) ∈ o ∧ (p.1, p.2 + 1) ∈ o).

(** Two cells that share a side. *)
Definition adjacent (p q : pos) : Prop := Z.abs (p.1 - q.1) + Z.abs (p.2 - q.2) = 1.

#[export] Instance adjacent_dec p q : Decision (adjacent p q).
Proof. unfold adjacent. apply _. Defined.

(** One move of a walk through the open cells [o], and walks. *)
Definition walk (o : gset pos) (p q : pos) : Prop := p ∈ o ∧ q ∈ o ∧ adjacent p q.

Definition connected (o : gset pos) : relation pos := rtc (walk o).

(** ** Lemmas *)

Lemma elem_of_directions d :
  d ∈ directions ↔ d = (-2, 0) ∨ d = (2, 0) ∨ d = (0, -2) ∨ d = (0, 2).
Proof. unfold directions. rewrite !elem_of_cons, elem_of_nil. naive_solver. Qed.

(** [dir_cases H] splits [H : d ∈ directions] into the four directions. *)
Ltac dir_cases H :=
  apply elem_of_directions in H as [-> | [-> | [-> | ->]]].

Lemma pos_eq_iff (p q : pos) : p = q ↔ p.1 = q.1 ∧ p.2 = q.2.
Proof. destruct p, q; simpl; split; [by intros [= -> ->] | by intros [-> ->]]. Qed.

(** [pos_lia] proves arithmetic facts about positions: it unfolds the
    lattice definitions, turns equations between positions into equations
    between coordinates, and calls [lia] with division and remainder by
    constants turned into equations. *)
Ltac pos_lia :=
  unfold in_bounds, node, adjacent, padd, midpoint in *;
  rewrite ?pos_eq_iff in *; simpl in *;
  Z.div_mod_to_equations; lia.

Section lattice.
Implicit Types (p q c d : pos) (o : gset pos) (h w : Z).

Lemma padd_node c d : d ∈ directions → node (padd c d) ↔ node c.
Proof. intros Hd. dir_cases Hd; pos_lia. Qed.

Lemma midpoint_not_node c d : d ∈ directions → node c → ¬ node (midpoint c d).
Proof. intros Hd Hc. dir_cases Hd; pos_lia. Qed.

Lemma midpoint_ne_padd c d : d ∈ directions → midpoint c d ≠ padd c d.
Proof. intros Hd ?. dir_cases Hd; pos_lia. Qed.

Lemma padd_ne c d : d ∈ directions → padd c d ≠ c.
Proof. intros Hd ?. dir_cases Hd; pos_lia. Qed.

Lemma midpoint_adjacent_l c d : d ∈ directions → adjacent c (midpoint c d).
Proof. intros Hd. dir_cases Hd; pos_lia. Qed.

Lemma midpoint_adjacent_r c d : d ∈ directions → adjacent (midpoint c d) (padd c d).
Proof. intros Hd. dir_cases Hd; pos_lia. Qed.

(** The midpoint lies between its two ends, so it inherits their bounds. *)
Lemma midpoint_between c d :
  d ∈ directions →
  (Z.min c.1 (padd c d).1 ≤ (midpoint c d).1 ≤ Z.max c.1 (padd c d).1) ∧
  (Z.min c.2 (padd c d).2 ≤ (midpoint c d).2 ≤ Z.max c.2 (padd c d).2).
Proof. intros Hd. dir_cases Hd; pos_lia. Qed.

Lemma passage_vertical o p a b :
  p.1 `mod` 2 = 0 → p.2 `mod` 2 = 1 → a = (p.1 - 1, p.2) → b = (p.1 + 1, p.2) →
  passage o p ↔ a ∈ o ∧ b ∈ o.
Proof. intros ?? -> ->. unfold passage. intuition lia. Qed.

Lemma passage_horizontal o p a b :
  p.1 `mod` 2 = 1 → p.2 `mod` 2 = 0 → a = (p.1, p.2 - 1) → b = (p.1, p.2 + 1) →
  passage o p ↔ a ∈ o ∧ b ∈ o.
Proof. intros ?? -> ->. unfold passage. intuition lia. Qed.

(** The midpoint of a node and its neighbour is a passage cell once both
    are open, and only then. *)
Lemma midpoint_passage o c d :
  d ∈ directions → node c → passage o (midpoint c d) ↔ c ∈ o ∧ padd c d ∈ o.
Proof.
  intros Hd Hc. dir_cases Hd.
  - rewrite (passage_vertical o _ (padd c (-2, 0)) c); [tauto | pos_lia ..].
  - rewrite (passage_vertical o _ c (padd c (2, 0))); [tauto | pos_lia ..].
  - rewrite (passage_horizontal o _ (padd c (0, -2)) c); [tauto | pos_lia ..].
  - rewrite (passage_horizontal o _ c (padd c (0, 2))); [tauto | pos_lia ..].
Qed.

Lemma passage_mono o o' p : o ⊆ o' → passage o p → passage o' p.
Proof. unfold passage. set_solver. Qed.

Lemma passage_not_node o p : passage o p → ¬ node p.
Proof. unfold passage, node. intuition lia. Qed.

Lemma walk_mono o o' p q : o ⊆ o' → walk o p q → walk o' p q.
Proof. unfold walk. set_solver. Qed.

Lemma connected_mono o o' p q : o ⊆ o' → connected o p q → connected o' p q.
Proof. intros Ho. apply rtc_subrel. intros ??. by apply walk_mono. Qed.

(** Opening more cells keeps passages and walks: [passage] and
    [connected] are monotone in the set of open cells, so an inclusion
    between sets rewrites under them, in a hypothesis (from the smaller
    set to the larger) and in the goal (from the larger to the smaller). *)
#[export] Instance passage_proper : Proper ((⊆) ==> (=) ==> impl) passage.
Proof. intros o o' Ho p ? <- Hp. by eapply passage_mono. Qed.

#[export] Instance passage_flip_proper : Proper (flip (⊆) ==> (=) ==> flip impl) passage.
Proof. intros o o' Ho p ? <- Hp. by eapply passage_mono. Qed.

#[export] Instance connected_proper : Proper ((⊆) ==> (=) ==> (=) ==> impl) connected.
Proof. intros o o' Ho p ? <- q ? <- Hc. by eapply connected_mono. Qed.

#[export] Instance connected_flip_proper :
  Proper (flip (⊆) ==> (=) ==> (=) ==> flip impl) connected.
Proof. intros o o' Ho p ? <- q ? <- Hc. by eapply connected_mono. Qed.

Lemma connected_r o p q r : connected o p q → walk o q r → connected o p r.
Proof. intros. by eapply rtc_r. Qed.

Lemma connected_elem_of o p q : connected o p q → p ∈ o → q ∈ o.
Proof. induction 1 as [|??? (? & ? & ?)]; eauto. Qed.

#[export] Instance adjacent_sym : Symmetric adjacent.
Proof. intros p q. unfold adjacent. lia. Qed.

#[export] Instance walk_sym o : Symmetric (walk o).
Proof. intros p q (? & ? & ?). by repeat split. Qed.

#[export] Instance connected_sym o : Symmetric (connected o).
Proof.
  intros p q Hpq. induction Hpq as [|p q r Hpq _ IH]; [done|].
  eapply rtc_r; [exact IH | by symmetry].
Qed.

End lattice.

#[export] Hint Resolve midpoint_adjacent_l midpoint_adjacent_r midpoint_ne_padd
  padd_ne : maze.
