(* ===== verification/DfsSpec.v ===== *)
(** * Specification of the maze generator: depth-first carving

    The abstract algorithm that [generate_maze] implements, as a transition
    system over the set of open cells and the stack of the search; its
    invariants, proved by induction on the transitions; what they say of a
    final state (empty stack); and a measure that bounds the number of
    transitions. *)

From S2P Require Import Prelude Grid Lattice.
From stdpp Require Import base tactics option list numbers gmap relations.

#[local] Open Scope Z_scope.

Record dfs_state : Type := Dfs {
  dfs_opens : gset pos;
  dfs_stack : list pos;
}.

Section dfs.
Context (h w : Z).
Implicit Types (s : dfs_state) (o : gset pos) (p q c d : pos).

(** One iteration of the loop: carve towards a closed neighbour of the top
    of the stack that is in bounds and push it, or, when there is none,
    pop. *)
Inductive dfs_step : dfs_state → dfs_state → Prop :=
| dfs_carve o st c d :
    last st = Some c → d ∈ directions →
    in_bounds h w (padd c d) → padd c d ∉ o →
    dfs_step (Dfs o st) (Dfs ({[midpoint c d]} ∪ ({[padd c d]} ∪ o)) (st ++ [padd c d]))
| dfs_backtrack o st c :
    last st = Some c →
    (∀ d, d ∈ directions → in_bounds h w (padd c d) → padd c d ∈ o) →
    dfs_step (Dfs o st) (Dfs o (removelast st)).

Definition dfs_init : dfs_state := Dfs {[(1, 1)]} [(1, 1)].

Definition dfs_reachable (s : dfs_state) : Prop := rtc dfs_step dfs_init s.

(** ** Invariants *)

Record dfs_inv (s : dfs_state) : Prop := DfsInv {
  inv_start : (1, 1) ∈ dfs_opens s;
  inv_stack c : c ∈ dfs_stack s → c ∈ dfs_opens s ∧ node c;
  inv_interior p : p ∈ dfs_opens s → p = (1, 1) ∨ in_bounds h w p;
  inv_shaped p : p ∈ dfs_opens s → node p ∨ passage (dfs_opens s) p;
  inv_linked p : p ∈ dfs_opens s → connected (dfs_opens s) (1, 1) p;
  inv_closed c d :
    c ∈ dfs_opens s → node c → c ∉ dfs_stack s →
    d ∈ directions → in_bounds h w (padd c d) → padd c d ∈ dfs_opens s;
  inv_tree :
    size (filter node (dfs_opens s)) =
    S (size (filter (λ p, ¬ node p) (dfs_opens s)));
}.

Lemma dfs_inv_init : dfs_inv dfs_init.
Proof.
  split; simpl.
  - set_solver.
  - intros c ->%list_elem_of_singleton. split; [set_solver | pos_lia].
  - set_solver.
  - intros p ->%elem_of_singleton. left. pos_lia.
  - intros p ->%elem_of_singleton. done.
  - set_solver.
  - rewrite !filter_singleton_L; [|apply _..].
    rewrite decide_True by pos_lia. rewrite decide_False by (intros Hn; apply Hn; pos_lia).
    by rewrite size_singleton.
Qed.

(** *** Carving *)

Section carve_step.
Context (o : gset pos) (st : list pos) (c d : pos).
Context (Hinv : dfs_inv (Dfs o st)).
Context (Htop : last st = Some c) (Hd : d ∈ directions).
Context (Hin : in_bounds h w (padd c d)) (Hnew : padd c d ∉ o).

#[local] Abbreviation o' := ({[midpoint c d]} ∪ ({[padd c d]} ∪ o)).

Lemma carve_top : c ∈ o ∧ node c.
Proof. apply (inv_stack _ Hinv). simpl. by apply last_elem_of. Qed.

Lemma carve_midpoint_new : midpoint c d ∉ o.
Proof.
  destruct carve_top as [Hc Hn]. intros Hm.
  destruct (inv_shaped _ Hinv _ Hm) as [Hnm|Hp]; simpl in *.
  - by apply (midpoint_not_node c d Hd Hn).
  - apply midpoint_passage in Hp; [|done..]. by destruct Hp.
Qed.

Lemma carve_midpoint_in_bounds : in_bounds h w (midpoint c d).
Proof.
  clear Hnew.
  destruct carve_top as [Hc _]. pose proof (midpoint_between c d Hd).
  destruct (inv_interior _ Hinv _ Hc) as [->|?]; simpl in *; pos_lia.
Qed.

Lemma carve_inv : dfs_inv (Dfs o' (st ++ [padd c d])).
Proof.
  destruct carve_top as [Hc Hn].
  assert (o ⊆ o') as Hsub by set_solver.
  assert (node (padd c d)) as Hnt by by apply padd_node.
  assert (¬ node (midpoint c d)) as Hnm by by apply midpoint_not_node.
  split; simpl.
  - apply Hsub, (inv_start _ Hinv).
  - intros c' [Hc'| ->%list_elem_of_singleton]%elem_of_app; [|split; [set_solver|done]].
    destruct (inv_stack _ Hinv c' Hc'). split; [set_solver|done].
  - intros p [->%elem_of_singleton|[->%elem_of_singleton|Hp]%elem_of_union]%elem_of_union.
    + right. apply carve_midpoint_in_bounds.
    + by right.
    + by apply (inv_interior _ Hinv).
  - intros p [->%elem_of_singleton|[->%elem_of_singleton|Hp]%elem_of_union]%elem_of_union.
    + right. apply midpoint_passage; [done..|]. set_solver.
    + by left.
    + destruct (inv_shaped _ Hinv _ Hp); [by left|right]. by rewrite <-Hsub.
  - assert (connected o' (1, 1) (midpoint c d)) as Hm.
    { eapply connected_r; [rewrite <-Hsub; by apply (inv_linked _ Hinv)|].
      repeat split; [set_solver..|by apply midpoint_adjacent_l]. }
    intros p [->%elem_of_singleton|[->%elem_of_singleton|Hp]%elem_of_union]%elem_of_union.
    + done.
    + eapply connected_r; [done|].
      repeat split; [set_solver..|by apply midpoint_adjacent_r].
    + rewrite <-Hsub. by apply (inv_linked _ Hinv).
  - intros c' d' Hc' Hn' Hns Hd' Hin'. apply Hsub.
    apply (inv_closed _ Hinv); simpl; [|done|set_solver|done..].
    assert (c' ≠ midpoint c d) by (by intros ->).
    assert (c' ≠ padd c d) by (intros ->; apply Hns; set_solver).
    set_solver.
  - rewrite !size_filter_insert by (pose proof carve_midpoint_new;
      pose proof (midpoint_ne_padd c d Hd); set_solver).
    rewrite (decide_False (P := node (midpoint c d))), (decide_True (P := node (padd c d))) by done.
    rewrite (decide_True (P := ¬ node (midpoint c d))) by done.
    rewrite (decide_False (P := ¬ node (padd c d))) by (by intros Hf).
    pose proof (inv_tree _ Hinv) as Ht. simpl in Ht. by rewrite Ht.
Qed.

End carve_step.

(** *** Backtracking *)

Lemma backtrack_inv o st c :
  dfs_inv (Dfs o st) → last st = Some c →
  (∀ d, d ∈ directions → in_bounds h w (padd c d) → padd c d ∈ o) →
  dfs_inv (Dfs o (removelast st)).
Proof.
  intros Hinv Htop Hall. split; simpl; try apply Hinv.
  - intros c' Hc'%elem_of_removelast. by apply (inv_stack _ Hinv).
  - intros c' d' Hc' Hn' Hns Hd' Hin'.
    destruct (decide (c' = c)) as [->|]; [by apply Hall|].
    apply (inv_closed _ Hinv); simpl; try done. intros Hc's.
    by destruct (elem_of_last_or_removelast _ _ _ Htop Hc's).
Qed.

Lemma dfs_inv_step s s' : dfs_inv s → dfs_step s s' → dfs_inv s'.
Proof.
  intros Hinv Hstep. revert Hinv.
  destruct Hstep; intros Hinv; [by apply carve_inv | by eapply backtrack_inv].
Qed.

Lemma dfs_inv_rtc s s' : dfs_inv s → rtc dfs_step s s' → dfs_inv s'.
Proof.
  intros Hinv Hrtc. induction Hrtc as [|x y z Hxy _ IH]; [done|].
  apply IH. by eapply dfs_inv_step.
Qed.

(** C24: every state that the search reaches from its initial state
    satisfies the invariant [dfs_inv]: the stack holds open nodes, every
    open cell is the start or inside the bounds, is a node or a passage
    between two open nodes, and can be walked to from the start; an open
    node that has left the stack has all its neighbours inside the bounds
    open; and there is one passage less than there are nodes. *)
Theorem dfs_reachable_inv s : dfs_reachable s → dfs_inv s.
Proof. apply dfs_inv_rtc, dfs_inv_init. Qed.


(** ** Final states *)

Section final.
Context (s : dfs_state) (Hinv : dfs_inv s) (Hdone : dfs_stack s = []).

Lemma final_closed c d :
  c ∈ dfs_opens s → node c → d ∈ directions → in_bounds h w (padd c d) →
  padd c d ∈ dfs_opens s.
Proof. intros. apply (inv_closed _ Hinv c); try done. rewrite Hdone. set_solver. Qed.

Lemma final_column (n : nat) i j :
  (i, j) ∈ dfs_opens s → node (i, j) → 1 ≤ i →
  in_bounds h w (i + 2 * Z.of_nat n, j) → (i + 2 * Z.of_nat n, j) ∈ dfs_opens s.
Proof.
  intros Hij Hn Hi. induction n as [|n IH]; intros Hin.
  - by replace (i + 2 * Z.of_nat 0) with i by lia.
  - replace (i + 2 * Z.of_nat (S n), j) with (padd (i + 2 * Z.of_nat n, j) (2, 0)) by pos_lia.
    apply final_closed; [apply IH| |set_solver|]; pos_lia.
Qed.

Lemma final_row (n : nat) i j :
  (i, j) ∈ dfs_opens s → node (i, j) → 1 ≤ j →
  in_bounds h w (i, j + 2 * Z.of_nat n) → (i, j + 2 * Z.of_nat n) ∈ dfs_opens s.
Proof.
  intros Hij Hn Hj. induction n as [|n IH]; intros Hin.
  - by replace (j + 2 * Z.of_nat 0) with j by lia.
  - replace (i, j + 2 * Z.of_nat (S n)) with (padd (i, j + 2 * Z.of_nat n) (0, 2)) by pos_lia.
    apply final_closed; [apply IH| |set_solver|]; pos_lia.
Qed.

(** Every node inside the bounds has been opened. *)
Lemma final_complete p : node p → in_bounds h w p → p ∈ dfs_opens s.
Proof.
  intros Hn Hin.
  replace p with (1 + 2 * Z.of_nat (Z.to_nat ((p.1 - 1) `div` 2)), 1 + 2 * Z.of_nat (Z.to_nat ((p.2 - 1) `div` 2)))
    in * by pos_lia.
  apply final_row; [apply final_column; [apply Hinv|..]|..]; pos_lia.
Qed.

End final.
(** ** Termination

    At most [cells] positions can ever be open: the start and the
    positions inside the bounds.  Every carving opens a new position and
    every backtracking shortens the stack, so [dfs_measure] decreases. *)

Definition rect : gset pos :=
  list_to_set (cprod (seqZ 1 (h - 2)) (seqZ 1 (w - 2))).

Definition cells : nat := S (Z.to_nat (h - 2) * Z.to_nat (w - 2)).

Definition dfs_measure (s : dfs_state) : nat :=
  2 * (cells - size (dfs_opens s)) + length (dfs_stack s).

Lemma cells_pos : (0 < cells)%nat.
Proof. apply Nat.lt_0_succ. Qed.

Lemma elem_of_rect p : p ∈ rect ↔ in_bounds h w p.
Proof.
  unfold rect. rewrite elem_of_list_to_set, list_elem_of_cprod, !elem_of_seqZ.
  unfold in_bounds. lia.
Qed.

Lemma size_rect : (size rect ≤ Z.to_nat (h - 2) * Z.to_nat (w - 2))%nat.
Proof.
  unfold rect. etrans; [apply size_list_to_set_le|].
  by rewrite list_cprod_list_prod, length_prod, !length_seqZ.
Qed.

Lemma dfs_inv_size s : dfs_inv s → (size (dfs_opens s) ≤ cells)%nat.
Proof.
  intros Hinv. assert (dfs_opens s ⊆ {[(1, 1)]} ∪ rect) as Hsub.
  { intros p Hp. destruct (inv_interior _ Hinv p Hp) as [->|?]; [set_solver|].
    apply elem_of_union_r. by apply elem_of_rect. }
  apply subseteq_size in Hsub. rewrite size_union_alt, size_singleton in Hsub.
  pose proof size_rect. assert (rect ∖ {[(1, 1)]} ⊆ rect) as Hd%subseteq_size by set_solver.
  unfold cells. lia.
Qed.

Lemma dfs_step_measure s s' :
  dfs_inv s → dfs_step s s' → (dfs_measure s' < dfs_measure s)%nat.
Proof.
  intros Hinv Hstep. pose proof (dfs_inv_size _ (dfs_inv_step _ _ Hinv Hstep)) as Hle.
  revert Hinv Hle. destruct Hstep as [o st c d Htop Hd Hin Hnew|o st c Htop Hall];
    intros Hinv Hle; unfold dfs_measure; simpl in *.
  - rewrite !size_insert_notin in * by (pose proof (carve_midpoint_new _ _ _ _ Hinv Htop Hd Hnew);
      pose proof (midpoint_ne_padd c d Hd); set_solver).
    rewrite length_app. simpl length. lia.
  - rewrite (length_removelast st c Htop). lia.
Qed.

(** C25: the search terminates: a run of [n] transitions from a state of
    the invariant has [n] at most the measure of its first state, which
    is at most twice the number of cells that can be opened plus the
    height of the stack. *)
Theorem dfs_nsteps_bound n s s' :
  dfs_inv s → nsteps dfs_step n s s' → (n + dfs_measure s' ≤ dfs_measure s)%nat.
Proof.
  intros Hinv Hn. induction Hn as [|n x y z Hxy _ IH]; [done|].
  pose proof (dfs_step_measure _ _ Hinv Hxy).
  specialize (IH (dfs_inv_step _ _ Hinv Hxy)). lia.
Qed.

(** ** Perfect mazes

    What the final state of the search is: every node inside the bounds is
    open, nothing outside the bounds is, every open cell is a node or a
    passage between two open nodes, every open cell can be walked to from
    the start, and there is exactly one passage less than there are nodes
    (the passages are the edges of a spanning tree of the nodes). *)

Record perfect_maze (o : gset pos) : Prop := PerfectMaze {
  perfect_complete p : node p → in_bounds h w p → p ∈ o;
  perfect_interior p : p ∈ o → in_bounds h w p;
  perfect_shaped p : p ∈ o → node p ∨ passage o p;
  perfect_linked p : p ∈ o → connected o (1, 1) p;
  perfect_tree : size (filter node o) = S (size (filter (λ p, ¬ node p) o));
}.

Lemma dfs_final_perfect s :
  3 ≤ h → 3 ≤ w → dfs_inv s → dfs_stack s = [] → perfect_maze (dfs_opens s).
Proof.
  intros Hh Hw Hinv Hdone. split; try apply Hinv.
  - by apply final_complete.
  - intros p Hp. destruct (inv_interior _ Hinv p Hp) as [->|?]; [pos_lia|done].
Qed.

End dfs.

(** ** Witnesses: the first carving on a 5 by 5 grid *)

Definition dfs_first : dfs_state :=
  Dfs ({[midpoint (1, 1) (2, 0)]} ∪ ({[padd (1, 1) (2, 0)]} ∪ {[(1, 1)]}))
      ([(1, 1)] ++ [padd (1, 1) (2, 0)]).

Lemma dfs_first_step : dfs_step 5 5 dfs_init dfs_first.
Proof.
  apply dfs_carve; [done | apply elem_of_directions; auto | pos_lia |].
  intros ?%elem_of_singleton. pos_lia.
Qed.

Lemma dfs_reachable_inv_witness : dfs_inv 5 5 dfs_first.
Proof. apply dfs_reachable_inv, rtc_once, dfs_first_step. Defined.


Lemma dfs_nsteps_bound_witness :
  (1 + dfs_measure 5 5 dfs_first ≤ dfs_measure 5 5 dfs_init)%nat.
Proof.
  apply dfs_nsteps_bound; [apply dfs_inv_init | apply nsteps_once, dfs_first_step].
Defined.
