(* ===== verification/Generator.v ===== *)
(** * The maze generator

    [generate_maze] of [src/maze_game.py]: the loop that carves the maze by
    randomised depth-first search.  The loop body is [generate_step], its
    [for ... else] is [scan], and the loop is [generate_loop], which runs
    on fuel.  The theorems show that each iteration is a transition of the
    specification [dfs_step] (refinement), that no subscript is ever out
    of range, that the loop ends within [gen_fuel] iterations for every
    random source, and that the maze it returns is perfect. *)

From S2P Require Import Prelude PyList Grid Random Lattice DfsSpec.
From stdpp Require Import base tactics option list numbers gmap relations.

#[local] Open Scope Z_scope.

(** The variables of the loop: the maze (mutated in place), the stack, the
    list [directions] (shuffled in place at each iteration, so its order
    persists from one iteration to the next) and the state of the random
    generator. *)
Record gen_state (R : Type) : Type := GenState {
  gen_maze : grid;
  gen_stack : list pos;
  gen_directions : list pos;
  gen_rng : R;
}.
Arguments GenState {R} _ _ _ _.
Arguments gen_maze {R} _.
Arguments gen_stack {R} _.
Arguments gen_directions {R} _.
Arguments gen_rng {R} _.

(** [1 <= nx < height - 1 and 1 <= ny < width - 1 and maze[nx][ny] == "#"]:
    [and] evaluates its right operand only when the left one holds. *)
Definition is_free (maze : grid) (width height nx ny : Z) : result bool :=
  if decide (1 ≤ nx ∧ nx < height - 1) then
    if decide (1 ≤ ny ∧ ny < width - 1) then
      c ← grid_get maze nx ny; Ok (bool_decide (c = Wall))
    else Ok false
  else Ok false.

(** [maze[x + dx // 2][y + dy // 2] = " "; maze[nx][ny] = " "] *)
Definition carve (maze : grid) (x y dx dy : Z) : result grid :=
  maze1 ← grid_set maze (x + dx `div` 2) (y + dy `div` 2) Open;
  grid_set maze1 (x + dx) (y + dy) Open.

(** The [for dx, dy in directions: ... break] loop with its [else]: the
    result is [Some] of the carved maze and the pushed cell when the loop
    is left by [break], and [None] when it runs to its end. *)
Fixpoint scan (maze : grid) (width height x y : Z) (ds : list pos)
    : result (option (grid * pos)) :=
  match ds with
  | [] => Ok None
  | (dx, dy) :: ds' =>
      let nx := x + dx in
      let ny := y + dy in
      free ← is_free maze width height nx ny;
      if free : bool then
        maze' ← carve maze x y dx dy;
        Ok (Some (maze', (nx, ny)))
      else scan maze width height x y ds'
  end.

Section generator.
Context `{RandomSource R}.

(** One evaluation of the [while stack:] test and, when the stack is not
    empty, of the loop body.  [inr maze] is [return maze]. *)
Definition generate_step (width height : Z) (st : gen_state R)
    : result (gen_state R + grid) :=
  match last (gen_stack st) with
  | None => Ok (inr (gen_maze st))
  | Some (x, y) =>
      let '(ds, r) := shuffle (gen_directions st) (gen_rng st) in
      found ← scan (gen_maze st) width height x y ds;
      match found with
      | Some (maze', n) => Ok (inl (GenState maze' (gen_stack st ++ [n]) ds r))
      | None => Ok (inl (GenState (gen_maze st) (removelast (gen_stack st)) ds r))
      end
  end.

(** The loop, on fuel: [None] is "out of fuel". *)
Fixpoint generate_loop (fuel : nat) (width height : Z) (st : gen_state R)
    : option (result grid) :=
  match fuel with
  | O => None
  | S fuel' =>
      match generate_step width height st with
      | Raise e => Some (Raise e)
      | Ok (inr maze) => Some (Ok maze)
      | Ok (inl st') => generate_loop fuel' width height st'
      end
  end.

Definition generate_maze (fuel : nat) (maze : grid) (width height : Z) (rng : R)
    : option (result grid) :=
  generate_loop fuel width height (GenState maze [(1, 1)] directions rng).

(** Fuel that is always enough (theorem [generate_maze_total]). *)
Definition gen_fuel (width height : Z) : nat := 2 * cells height width.

(** ** Refinement: the abstraction and the coupling invariant *)

Definition gen_abs (st : gen_state R) : dfs_state :=
  Dfs (opens_of (gen_maze st)) (gen_stack st).

Record gen_inv (width height : Z) (st : gen_state R) : Prop := GenInv {
  gen_inv_dims : grid_dims (gen_maze st) height width;
  gen_inv_directions : gen_directions st ≡ₚ directions;
  gen_inv_dfs : dfs_inv height width (gen_abs st);
}.

(** A direction is free at a cell when the neighbour it leads to is
    inside the bounds and still a wall. *)
Definition free_at (m : grid) (width height : Z) (c d : pos) : Prop :=
  in_bounds height width (padd c d) ∧ padd c d ∉ opens_of m.

#[export] Instance free_at_dec m width height c d : Decision (free_at m width height c d).
Proof. unfold free_at. apply _. Defined.

(** ** The loop body against the specification view *)

Lemma opens_of_carve (m : grid) (c d : pos) :
  is_Some (cell_at m (midpoint c d)) → is_Some (cell_at m (padd c d)) →
  opens_of (grid_update (grid_update m (midpoint c d) Open) (padd c d) Open) =
  {[midpoint c d]} ∪ ({[padd c d]} ∪ opens_of m).
Proof.
  intros Hm Ht. rewrite !opens_of_update_Open; [set_solver|done|].
  by apply cell_at_update_is_Some.
Qed.

Section scan_loop.
Context (width height : Z) (m : grid).
Context (Hdims : grid_dims m height width).
Implicit Types (c d t : pos) (ds : list pos).

Lemma in_bounds_cell_at t : in_bounds height width t → is_Some (cell_at m t).
Proof. intros. apply (grid_dims_cell_at _ _ _ _ Hdims). pos_lia. Qed.

(** The test of line 46 never raises, and holds exactly of the closed
    cells inside the bounds. *)
Lemma is_free_spec nx ny :
  is_free m width height nx ny =
  Ok (bool_decide (in_bounds height width (nx, ny) ∧ (nx, ny) ∉ opens_of m)).
Proof.
  unfold is_free. destruct (decide (in_bounds height width (nx, ny))) as [Hin|Hout].
  - destruct (in_bounds_cell_at _ Hin) as [c Hc]. destruct Hin as [? ?].
    simpl in *. rewrite !decide_True, grid_get_cell_at by lia. rewrite Hc.
    simpl. f_equal. apply bool_decide_ext. rewrite elem_of_opens_of, Hc.
    unfold in_bounds. destruct c; naive_solver.
  - rewrite (bool_decide_eq_false_2 (_ ∧ _)) by tauto.
    unfold in_bounds in Hout. by repeat case_decide; try tauto.
Qed.

(** The two assignments of lines 47-48 succeed when both cells are in
    the grid. *)
Lemma carve_spec c dx dy :
  let d := (dx, dy) in
  is_Some (cell_at m (midpoint c d)) → is_Some (cell_at m (padd c d)) →
  carve m c.1 c.2 dx dy =
  Ok (grid_update (grid_update m (midpoint c d) Open) (padd c d) Open).
Proof.
  intros d Hm Ht. unfold carve.
  change (grid_set m _ _ Open) with (grid_set m (midpoint c d).1 (midpoint c d).2 Open).
  rewrite grid_set_Ok by done. simpl.
  change (grid_set ?m' _ _ Open) with (grid_set m' (padd c d).1 (padd c d).2 Open).
  rewrite grid_set_Ok; [done|]. by apply cell_at_update_is_Some.
Qed.

(** The [for ... else] loop: it never raises; it leaves by [break] at the
    first direction whose neighbour is free, with that neighbour and the
    midpoint opened; it runs to its [else] when no neighbour is free. *)
Lemma scan_spec c ds :
  (∀ d, d ∈ ds → in_bounds height width (padd c d) →
        is_Some (cell_at m (midpoint c d))) →
  ∃ found, scan m width height c.1 c.2 ds = Ok found ∧
    match found with
    | Some (m', t) => ∃ d, d ∈ ds ∧ t = padd c d ∧
        in_bounds height width t ∧ (t ∉ opens_of m) ∧
        m' = grid_update (grid_update m (midpoint c d) Open) t Open
    | None => ∀ d, d ∈ ds → in_bounds height width (padd c d) → padd c d ∈ opens_of m
    end.
Proof.
  induction ds as [|[dx dy] ds IH]; intros Hmid; simpl.
  { exists None. split; [done|]. by intros d ?%elem_of_nil. }
  rewrite is_free_spec. simpl. case_bool_decide as Hfree.
  - destruct Hfree as [Hin Hnew].
    rewrite carve_spec by eauto using in_bounds_cell_at, list_elem_of_here.
    simpl. eexists. split; [done|]. exists (dx, dy). by rewrite elem_of_cons; auto.
  - destruct IH as (found & -> & Hfound); [by intros; apply Hmid; [right|]|].
    exists found. split; [done|]. destruct found as [[m' t]|].
    + destruct Hfound as (d & ? & ?). exists d. by rewrite elem_of_cons; auto.
    + intros d [->|Hd]%elem_of_cons Hin; [|by apply Hfound].
      destruct (decide (padd c (dx, dy) ∈ opens_of m)); [done|]. by destruct Hfree.
Qed.

(** C27: the [for] loop takes the first free direction of the shuffled
    list, in its order: it carves towards that neighbour and breaks, and
    runs to its [else] exactly when no direction is free; it never
    raises. *)
Theorem scan_first_free c ds :
  (∀ d, d ∈ ds → in_bounds height width (padd c d) →
        is_Some (cell_at m (midpoint c d))) →
  scan m width height c.1 c.2 ds =
  Ok (match list_find (free_at m width height c) ds with
      | Some (_, d) =>
          Some (grid_update (grid_update m (midpoint c d) Open) (padd c d) Open, padd c d)
      | None => None
      end).
Proof.
  induction ds as [|[dx dy] ds IH]; intros Hmid; [done|]. cbn [scan list_find].
  rewrite is_free_spec.
  change (bool_decide _) with (bool_decide (free_at m width height c (dx, dy))).
  destruct (decide (free_at m width height c (dx, dy))) as [[Hin Hnew]|Hfree].
  - rewrite bool_decide_eq_true_2 by done. simpl.
    by rewrite carve_spec by eauto using in_bounds_cell_at, list_elem_of_here.
  - rewrite bool_decide_eq_false_2 by done. simpl.
    rewrite IH by (by intros; apply Hmid; [right|]).
    by destruct (list_find _ ds) as [[i d]|].
Qed.

End scan_loop.

(** ** Refinement and totality *)

Section refinement.
Context (width height : Z).
Implicit Types (st : gen_state R) (m maze : grid).

Lemma generate_step_empty st :
  gen_stack st = [] → generate_step width height st = Ok (inr (gen_maze st)).
Proof. intros Hs. unfold generate_step. by rewrite Hs. Qed.

(** Every iteration of the loop of [generate_maze] is a transition of the
    specification, raises nothing, and keeps the coupling invariant. *)
Lemma generate_step_sim st :
  gen_inv width height st → gen_stack st ≠ [] →
  ∃ st', generate_step width height st = Ok (inl st') ∧
         dfs_step height width (gen_abs st) (gen_abs st') ∧
         gen_inv width height st'.
Proof.
  destruct st as [m stk ds r]. intros [Hdims Hdirs Hdfs] Hne.
  unfold generate_step, gen_abs in *; simpl in *.
  destruct (last stk) as [c|] eqn:Htop; [|by apply last_None in Htop].
  destruct (shuffle ds r) as [ds' r'] eqn:Hsh.
  assert (ds' ≡ₚ directions) as Hds'.
  { rewrite <-Hdirs. pose proof (shuffle_perm ds r) as Hp. by rewrite Hsh in Hp. }
  assert (∀ d, d ∈ ds' → in_bounds height width (padd c d) →
    is_Some (cell_at m (midpoint c d))) as Hmid.
  { intros d Hd Hin. apply (in_bounds_cell_at width height m Hdims).
    eapply carve_midpoint_in_bounds; [exact Hdfs|done|by rewrite <-Hds'|done]. }
  destruct (scan_spec width height m Hdims c ds' Hmid) as (found & Hscan & Hfound).
  destruct c as [x y]. simpl in Hscan. rewrite Hscan. simpl.
  assert (∀ s', dfs_step height width (Dfs (opens_of m) stk) s' → dfs_inv height width s')
    as Hkeep by (intros; by eapply dfs_inv_step).
  destruct found as [[m' t]|].
  - destruct Hfound as (d & Hd & -> & Hin & Hnew & ->).
    eexists. split; [done|]. simpl.
    rewrite opens_of_carve by eauto using in_bounds_cell_at.
    rewrite Hds' in Hd. pose proof (dfs_carve height width _ _ _ _ Htop Hd Hin Hnew).
    split; [done|]. split; simpl; [by do 2 apply grid_dims_update | done |].
    unfold gen_abs. simpl. rewrite opens_of_carve by (rewrite <-?Hds' in Hd; eauto using in_bounds_cell_at).
    by apply Hkeep.
  - eexists. split; [done|]. simpl.
    assert (dfs_step height width (Dfs (opens_of m) stk) (Dfs (opens_of m) (removelast stk))).
    { eapply dfs_backtrack; [done|]. intros d Hd. apply Hfound. by rewrite Hds'. }
    split; [done|]. split; simpl; [done..|by apply Hkeep].
Qed.

(** The loop ends, with the empty stack, as soon as the fuel exceeds the
    measure of the specification. *)
Lemma generate_loop_run fuel st :
  gen_inv width height st →
  (dfs_measure height width (gen_abs st) < fuel)%nat →
  ∃ st', generate_loop fuel width height st = Some (Ok (gen_maze st')) ∧
         rtc (dfs_step height width) (gen_abs st) (gen_abs st') ∧
         gen_inv width height st' ∧ gen_stack st' = [].
Proof.
  revert st. induction fuel as [|fuel IH]; intros st Hinv Hfuel; [lia|]. simpl.
  destruct (decide (gen_stack st = [])) as [Hs|Hs].
  - rewrite generate_step_empty by done. by exists st.
  - destruct (generate_step_sim st Hinv Hs) as (st1 & -> & Hstep & Hinv1).
    pose proof (dfs_step_measure _ _ _ _ (gen_inv_dfs _ _ _ Hinv) Hstep).
    destruct (IH st1 Hinv1) as (st' & -> & Hrtc & ?); [lia|].
    exists st'. split; [done|]. split; [by eapply rtc_l|done].
Qed.

Lemma gen_inv_init m rng :
  grid_dims m height width → opens_of m = {[(1, 1)]} →
  gen_inv width height (GenState m [(1, 1)] directions rng).
Proof.
  intros Hdims Ho. split; simpl; [done..|]. unfold gen_abs. simpl. rewrite Ho.
  apply dfs_inv_init.
Qed.

(** A run of [generate_maze] from a grid whose only open cell is (1,1) is
    a run of the specification from its initial state to a final state. *)
Lemma generate_maze_run fuel maze rng :
  grid_dims maze height width → opens_of maze = {[(1, 1)]} →
  (gen_fuel width height ≤ fuel)%nat →
  ∃ st', generate_maze fuel maze width height rng = Some (Ok (gen_maze st')) ∧
         rtc (dfs_step height width) dfs_init (gen_abs st') ∧
         gen_inv width height st' ∧ gen_stack st' = [].
Proof.
  intros Hdims Ho Hfuel. unfold generate_maze.
  destruct (generate_loop_run fuel _ (gen_inv_init maze rng Hdims Ho))
    as (st' & -> & Hrtc & Hinv & Hs).
  { unfold dfs_measure, gen_abs, gen_fuel in *.
    cbn [dfs_opens dfs_stack gen_maze gen_stack length].
    rewrite Ho, size_singleton. pose proof (cells_pos height width). lia. }
  exists st'. unfold gen_abs in Hrtc. simpl in Hrtc. by rewrite Ho in Hrtc.
Qed.


End refinement.

(** ** The maze that [generate_maze] returns *)

Section generated.
Context (width height : Z) (fuel : nat) (rng : R) (maze0 : grid).
Context (Hinit : initialize_maze width height = Ok maze0).
Context (Hfuel : (gen_fuel width height ≤ fuel)%nat).

Lemma generate_maze_reaches :
  ∃ m, generate_maze fuel maze0 width height rng = Some (Ok m) ∧
       grid_dims m height width ∧
       dfs_inv height width (Dfs (opens_of m) []).
Proof.
  destruct (generate_maze_run width height fuel maze0 rng)
    as (st' & Hm & Hrtc & [Hdims _ Hinv] & Hs);
    eauto using initialize_maze_dims, initialize_maze_opens.
  unfold gen_abs in Hinv. rewrite Hs in Hinv. eauto.
Qed.

(** C7: refinement.  The run of [generate_maze] on the grid of
    [initialize_maze] is a run of the specification [dfs_step]: the open
    cells of the maze it returns, with the empty stack, are a state that
    the depth-first carving reaches from its initial state. *)
Theorem generate_maze_refines :
  ∃ m, generate_maze fuel maze0 width height rng = Some (Ok m) ∧
       dfs_reachable height width (Dfs (opens_of m) []).
Proof.
  destruct (generate_maze_run width height fuel maze0 rng)
    as (st' & Hm & Hrtc & _ & Hs);
    eauto using initialize_maze_dims, initialize_maze_opens.
  unfold gen_abs in Hrtc. rewrite Hs in Hrtc. eauto.
Qed.


(** C3: for every width and height that [initialize_maze] accepts, every
    random source and every fuel from [gen_fuel width height] on,
    [generate_maze] returns a maze: the loop ends and no subscript is
    out of range. *)
Theorem generate_maze_total :
  ∃ m, generate_maze fuel maze0 width height rng = Some (Ok m) ∧
       grid_dims m height width.
Proof. destruct generate_maze_reaches as (m & ? & ? & _). eauto. Qed.

(** C1: for a width and a height of at least 3, the maze returned by
    [generate_maze] on the grid of [initialize_maze] is perfect: every node
    (odd row, odd column) inside the bounds is open, no cell outside the
    bounds is open, every open cell is a node or a passage between two open
    nodes, every open cell can be walked to from (1,1), and the passages
    are one less than the nodes. *)
Theorem generate_maze_perfect :
  3 ≤ width → 3 ≤ height →
  ∃ m, generate_maze fuel maze0 width height rng = Some (Ok m) ∧
       grid_dims m height width ∧
       perfect_maze height width (opens_of m).
Proof.
  intros. destruct generate_maze_reaches as (m & ? & ? & Hinv).
  exists m. split; [done|]. split; [done|].
  by apply (dfs_final_perfect height width (Dfs (opens_of m) [])).
Qed.

End generated.


End generator.

(** ** Witnesses: a 5 by 5 maze from a recorded random source *)

Definition maze5 : grid := grid_update (walls_only 5 5) (1, 1) Open.

Definition draws5 : list nat := [3; 1; 2; 0; 1; 1; 2; 3; 0; 0; 1]%nat.

Lemma maze5_init : initialize_maze 5 5 = Ok maze5.
Proof. reflexivity. Qed.

Lemma generate_maze_perfect_witness :
  ∃ m, generate_maze (gen_fuel 5 5) maze5 5 5 draws5 = Some (Ok m) ∧
       grid_dims m 5 5 ∧ perfect_maze 5 5 (opens_of m).
Proof. apply generate_maze_perfect; [exact maze5_init | done | lia | lia]. Defined.

Lemma generate_maze_total_witness :
  ∃ m, generate_maze (gen_fuel 5 5) maze5 5 5 draws5 = Some (Ok m) ∧ grid_dims m 5 5.
Proof. apply generate_maze_total; [exact maze5_init | done]. Defined.

Lemma generate_maze_refines_witness :
  ∃ m, generate_maze (gen_fuel 5 5) maze5 5 5 draws5 = Some (Ok m) ∧
       dfs_reachable 5 5 (Dfs (opens_of m) []).
Proof. apply generate_maze_refines; [exact maze5_init | done]. Defined.

Lemma scan_first_free_witness :
  scan maze5 5 5 1 1 [(-2, 0); (0, 2); (2, 0)] =
  Ok (match list_find (free_at maze5 5 5 (1, 1)) [(-2, 0); (0, 2); (2, 0)] with
      | Some (_, d) =>
          Some (grid_update (grid_update maze5 (midpoint (1, 1) d) Open)
                  (padd (1, 1) d) Open, padd (1, 1) d)
      | None => None
      end).
Proof.
  assert (grid_dims maze5 5 5) as Hdims by (by apply (bool_decide_unpack _)).
  apply (scan_first_free 5 5 maze5 Hdims (1, 1) [(-2, 0); (0, 2); (2, 0)]).
  intros d Hd _. set_unfold in Hd. destruct Hd as [->|[->|[->|[]]]]; by eexists.
Defined.

