(* ===== verification/Game.v ===== *)
(** * The game state and its start-up

    The module-level variables of [src/maze_game.py] that the main loop
    reads and writes, the constants that configure them, and the start-up
    code that runs before the loop (lines 128-148): build the maze, place
    the player and the exit, open the exit cell, initialise the movement
    timer. *)

From S2P Require Import Prelude PyList Grid Random Lattice DfsSpec Generator.
From stdpp Require Import base tactics option list numbers gmap.

#[local] Open Scope Z_scope.

(** The constants of the program.  The theorems are stated for every value
    of the constants that meets their hypotheses; [maze_game_settings]
    holds the values of the source. *)
Record settings : Type := Settings {
  WIDTH : Z;
  HEIGHT : Z;
  CELL_SIZE : Z;
  initial_move_delay : Z;
  min_move_delay : Z;
  acceleration_rate : Z;
}.

Definition maze_game_settings : settings := {|
  WIDTH := 21;
  HEIGHT := 21;
  CELL_SIZE := 20;
  initial_move_delay := 200;
  min_move_delay := 50;
  acceleration_rate := 10;
|}.

Definition SCREEN_WIDTH (cfg : settings) : Z := WIDTH cfg * CELL_SIZE cfg.
Definition SCREEN_HEIGHT (cfg : settings) : Z := HEIGHT cfg * CELL_SIZE cfg.

(** [movement_direction] is ["UP"], ["DOWN"], ["LEFT"], ["RIGHT"] or [None]. *)
Inductive direction : Set :=
| UP
| DOWN
| LEFT
| RIGHT.

#[export] Instance direction_eq_dec : EqDecision direction.
Proof. solve_decision. Defined.

(** The variables of the main loop.  [player_pos] and [exit_pos] are the
    two-element lists [[row, column]]. *)
Record game : Type := Game {
  maze : grid;
  player_pos : pos;
  exit_pos : pos;
  move_delay : Z;
  last_move_time : Z;
  movement_direction : option direction;
  game_won : bool;
  display_start_message : bool;
}.

(** Assignments to one variable of the loop. *)
Definition with_player_pos (p : pos) (g : game) : game :=
  {| maze := maze g; player_pos := p; exit_pos := exit_pos g;
     move_delay := move_delay g; last_move_time := last_move_time g;
     movement_direction := movement_direction g; game_won := game_won g;
     display_start_message := display_start_message g |}.

Definition with_move_delay (d : Z) (g : game) : game :=
  {| maze := maze g; player_pos := player_pos g; exit_pos := exit_pos g;
     move_delay := d; last_move_time := last_move_time g;
     movement_direction := movement_direction g; game_won := game_won g;
     display_start_message := display_start_message g |}.

Definition with_last_move_time (t : Z) (g : game) : game :=
  {| maze := maze g; player_pos := player_pos g; exit_pos := exit_pos g;
     move_delay := move_delay g; last_move_time := t;
     movement_direction := movement_direction g; game_won := game_won g;
     display_start_message := display_start_message g |}.

Definition with_movement_direction (d : option direction) (g : game) : game :=
  {| maze := maze g; player_pos := player_pos g; exit_pos := exit_pos g;
     move_delay := move_delay g; last_move_time := last_move_time g;
     movement_direction := d; game_won := game_won g;
     display_start_message := display_start_message g |}.

Definition with_game_won (b : bool) (g : game) : game :=
  {| maze := maze g; player_pos := player_pos g; exit_pos := exit_pos g;
     move_delay := move_delay g; last_move_time := last_move_time g;
     movement_direction := movement_direction g; game_won := b;
     display_start_message := display_start_message g |}.

Definition with_display_start_message (b : bool) (g : game) : game :=
  {| maze := maze g; player_pos := player_pos g; exit_pos := exit_pos g;
     move_delay := move_delay g; last_move_time := last_move_time g;
     movement_direction := movement_direction g; game_won := game_won g;
     display_start_message := b |}.

(** Lines 128-148.  The result is a state, an exception, or [None] when
    the fuel of the generator's loop did not suffice (which [startup_ok]
    excludes); [ticks] is what [pygame.time.get_ticks()] answers. *)
Definition startup `{RandomSource R} (cfg : settings) (fuel : nat) (rng : R)
    (ticks : Z) : option (result game) :=
  match initialize_maze (WIDTH cfg) (HEIGHT cfg) with
  | Raise e => Some (Raise e)
  | Ok maze0 =>
      match generate_maze fuel maze0 (WIDTH cfg) (HEIGHT cfg) rng with
      | None => None
      | Some (Raise e) => Some (Raise e)
      | Some (Ok maze1) =>
          let player := (1, 1) in
          let exit := (HEIGHT cfg - 2, WIDTH cfg - 2) in
          Some (maze2 ← grid_set maze1 exit.1 exit.2 Open;
                Ok {| maze := maze2;
                      player_pos := player;
                      exit_pos := exit;
                      move_delay := initial_move_delay cfg;
                      last_move_time := ticks;
                      movement_direction := None;
                      game_won := false;
                      display_start_message := true |})
      end
  end.

(** ** The invariant of the game state

    The grid has the configured dimensions, every open cell lies strictly
    inside it (so the border is all walls), the player stands on an open
    cell, the exit is where start-up put it, and the delay stays between
    its two bounds. *)

Definition enclosed (m : grid) (h w : Z) : Prop :=
  ∀ p, cell_at m p = Some Open → in_bounds h w p.

Record game_ok (cfg : settings) (g : game) : Prop := GameOk {
  ok_dims : grid_dims (maze g) (HEIGHT cfg) (WIDTH cfg);
  ok_enclosed : enclosed (maze g) (HEIGHT cfg) (WIDTH cfg);
  ok_player : cell_at (maze g) (player_pos g) = Some Open;
  ok_exit : exit_pos g = (HEIGHT cfg - 2, WIDTH cfg - 2);
  ok_delay : min_move_delay cfg ≤ move_delay g ≤ initial_move_delay cfg;
}.

(** What the constants must satisfy for the invariant to make sense. *)
Record settings_ok (cfg : settings) : Prop := SettingsOk {
  ok_width : 3 ≤ WIDTH cfg;
  ok_height : 3 ≤ HEIGHT cfg;
  ok_delays : min_move_delay cfg ≤ initial_move_delay cfg;
  ok_rate : 0 ≤ acceleration_rate cfg;
}.

Lemma maze_game_settings_ok : settings_ok maze_game_settings.
Proof. split; simpl; lia. Qed.

(** ** The invariant is decidable

    [enclosed] quantifies over all positions, but only those of the grid
    matter, so the invariant of a concrete state can be computed. *)

Lemma enclosed_positions m h w :
  enclosed m h w ↔
  Forall (λ p, cell_at m p = Some Open → in_bounds h w p) (positions m).
Proof.
  rewrite Forall_forall. unfold enclosed. split; [by auto|].
  intros Hm p Hp. apply Hm; [|done]. apply elem_of_positions. by rewrite Hp.
Qed.

#[export] Instance enclosed_dec m h w : Decision (enclosed m h w).
Proof.
  refine (cast_if (decide (Forall (λ p, cell_at m p = Some Open → in_bounds h w p)
                                  (positions m))));
    by rewrite enclosed_positions.
Defined.

Lemma game_ok_alt cfg g :
  game_ok cfg g ↔
  grid_dims (maze g) (HEIGHT cfg) (WIDTH cfg) ∧
  enclosed (maze g) (HEIGHT cfg) (WIDTH cfg) ∧
  cell_at (maze g) (player_pos g) = Some Open ∧
  exit_pos g = (HEIGHT cfg - 2, WIDTH cfg - 2) ∧
  min_move_delay cfg ≤ move_delay g ≤ initial_move_delay cfg.
Proof. split; [by intros [] | by intros (? & ? & ? & ? & ?)]. Qed.

#[export] Instance game_ok_dec cfg g : Decision (game_ok cfg g).
Proof.
  refine (cast_if (decide (
    grid_dims (maze g) (HEIGHT cfg) (WIDTH cfg) ∧
    enclosed (maze g) (HEIGHT cfg) (WIDTH cfg) ∧
    cell_at (maze g) (player_pos g) = Some Open ∧
    exit_pos g = (HEIGHT cfg - 2, WIDTH cfg - 2) ∧
    min_move_delay cfg ≤ move_delay g ≤ initial_move_delay cfg)));
    by rewrite game_ok_alt.
Defined.

Lemma settings_ok_alt cfg :
  settings_ok cfg ↔
  3 ≤ WIDTH cfg ∧ 3 ≤ HEIGHT cfg ∧
  min_move_delay cfg ≤ initial_move_delay cfg ∧ 0 ≤ acceleration_rate cfg.
Proof. split; [by intros [] | by intros (? & ? & ? & ?)]. Qed.

#[export] Instance settings_ok_dec cfg : Decision (settings_ok cfg).
Proof.
  refine (cast_if (decide (3 ≤ WIDTH cfg ∧ 3 ≤ HEIGHT cfg ∧
    min_move_delay cfg ≤ initial_move_delay cfg ∧ 0 ≤ acceleration_rate cfg)));
    by rewrite settings_ok_alt.
Defined.

(** ** A corridor for the witnesses

    A 3 by 5 grid whose middle row is open, the player at its left end and
    the exit at its right end, being played with the delays of the source. *)

Definition corridor_settings : settings := {|
  WIDTH := 5; HEIGHT := 3; CELL_SIZE := 20;
  initial_move_delay := 200; min_move_delay := 50; acceleration_rate := 10;
|}.

Definition corridor : grid :=
  [[Wall; Wall; Wall; Wall; Wall]; [Wall; Open; Open; Open; Wall];
   [Wall; Wall; Wall; Wall; Wall]].

Definition corridor_game : game := {|
  maze := corridor; player_pos := (1, 1); exit_pos := (1, 3);
  move_delay := 200; last_move_time := 0; movement_direction := None;
  game_won := false; display_start_message := false;
|}.

Lemma corridor_settings_ok : settings_ok corridor_settings.
Proof. by apply (bool_decide_unpack _). Qed.

Lemma corridor_game_ok : game_ok corridor_settings corridor_game.
Proof. by apply (bool_decide_unpack _). Qed.

Section start.
Context (cfg : settings) (Hcfg : settings_ok cfg) (ticks : Z).

Lemma enclosed_opens_of m h w :
  enclosed m h w ↔ ∀ p, p ∈ opens_of m → in_bounds h w p.
Proof. unfold enclosed. by setoid_rewrite elem_of_opens_of. Qed.

Lemma enclosed_update m h w p :
  enclosed m h w → in_bounds h w p → enclosed (grid_update m p Open) h w.
Proof.
  intros Hm Hp q. rewrite cell_at_update. case_decide; [by subst|apply Hm].
Qed.

(** The state start-up builds from the generated maze [m]. *)
Definition start_game (m : grid) : game := {|
  maze := grid_update m (HEIGHT cfg - 2, WIDTH cfg - 2) Open;
  player_pos := (1, 1);
  exit_pos := (HEIGHT cfg - 2, WIDTH cfg - 2);
  move_delay := initial_move_delay cfg;
  last_move_time := ticks;
  movement_direction := None;
  game_won := false;
  display_start_message := true;
|}.

Lemma exit_in_bounds : in_bounds (HEIGHT cfg) (WIDTH cfg) (HEIGHT cfg - 2, WIDTH cfg - 2).
Proof. destruct Hcfg. pos_lia. Qed.

Lemma start_game_ok m :
  grid_dims m (HEIGHT cfg) (WIDTH cfg) →
  perfect_maze (HEIGHT cfg) (WIDTH cfg) (opens_of m) →
  game_ok cfg (start_game m).
Proof.
  intros Hdims Hperf. pose proof exit_in_bounds as Hexit.
  assert (enclosed m (HEIGHT cfg) (WIDTH cfg)) as Henc
    by apply enclosed_opens_of, Hperf.
  destruct Hcfg. split; simpl; [by apply grid_dims_update|by apply enclosed_update| |done|lia].
  rewrite cell_at_update. case_decide.
  { by destruct (in_bounds_cell_at _ _ m Hdims _ Hexit) as [c ->]. }
  apply elem_of_opens_of, (perfect_complete _ _ _ Hperf); pos_lia.
Qed.

Lemma start_game_exit_open m :
  grid_dims m (HEIGHT cfg) (WIDTH cfg) →
  cell_at (maze (start_game m)) (exit_pos (start_game m)) = Some Open.
Proof.
  intros Hdims. simpl. rewrite cell_at_update, decide_True by done.
  by destruct (in_bounds_cell_at _ _ m Hdims _ exit_in_bounds) as [c ->].
Qed.

End start.

Section startup_code.
Context `{RandomSource R} (cfg : settings) (Hcfg : settings_ok cfg).
Context (fuel : nat) (rng : R) (ticks : Z).
Context (Hfuel : (gen_fuel (WIDTH cfg) (HEIGHT cfg) ≤ fuel)%nat).

(** Start-up raises nothing: it is [start_game] of a perfect maze. *)
Lemma startup_eq :
  ∃ m, grid_dims m (HEIGHT cfg) (WIDTH cfg) ∧
       perfect_maze (HEIGHT cfg) (WIDTH cfg) (opens_of m) ∧
       startup cfg fuel rng ticks = Some (Ok (start_game cfg ticks m)).
Proof.
  pose proof (exit_in_bounds cfg Hcfg) as Hexit.
  destruct Hcfg as [Hw Hh Hd Hr]. unfold startup.
  destruct (initialize_maze (WIDTH cfg) (HEIGHT cfg)) as [maze0|e] eqn:Hinit;
    [|by rewrite initialize_maze_unfold, decide_True in Hinit by lia].
  destruct (generate_maze_reaches _ _ fuel rng maze0 Hinit Hfuel)
    as (m & -> & Hdims & Hinv).
  exists m. split; [done|]. split; [exact (dfs_final_perfect _ _ _ Hh Hw Hinv eq_refl)|].
  rewrite (grid_set_Ok m (HEIGHT cfg - 2, WIDTH cfg - 2));
    [done | by eapply in_bounds_cell_at].
Qed.

(** C6: start-up succeeds for every random source once the width and the
    height are at least 3 (and the delays are ordered): the generator's
    loop ends, no subscript is out of range, and the state it builds
    satisfies the invariant of the game, with the player on (1,1), the
    exit cell open, the start message shown and the game not won. *)
Theorem startup_ok :
  ∃ g, startup cfg fuel rng ticks = Some (Ok g) ∧ game_ok cfg g ∧
       cell_at (maze g) (exit_pos g) = Some Open ∧
       player_pos g = (1, 1) ∧ move_delay g = initial_move_delay cfg ∧
       last_move_time g = ticks ∧ movement_direction g = None ∧
       game_won g = false ∧ display_start_message g = true.
Proof.
  destruct startup_eq as (m & Hdims & Hperf & ->).
  exists (start_game cfg ticks m). split; [done|]. split; [by apply start_game_ok|].
  split; [by apply start_game_exit_open|done].
Qed.

(** C32: error path.  Start-up raises [IndexError] exactly when the
    width or the height is below 2, from [maze[1][1]] in
    [initialize_maze]; from 2 on every subscript of the generator and of
    line 134 is in range (for widths and heights of 2, where the invariant
    of the game does not hold, too). *)
Theorem startup_raises_iff :
  startup cfg fuel rng ticks = Some (Raise IndexError) ↔ WIDTH cfg < 2 ∨ HEIGHT cfg < 2.
Proof using Hfuel.
  unfold startup. rewrite <-initialize_maze_raises.
  destruct (initialize_maze (WIDTH cfg) (HEIGHT cfg)) as [maze0|[]] eqn:Hinit; [|done].
  destruct (generate_maze_reaches _ _ fuel rng maze0 Hinit Hfuel) as (m & -> & Hdims & _).
  rewrite initialize_maze_unfold in Hinit. case_decide; [|done].
  rewrite (grid_set_Ok m (HEIGHT cfg - 2, WIDTH cfg - 2)); [done|].
  apply (grid_dims_cell_at _ _ _ _ Hdims). simpl. lia.
Qed.

End startup_code.

(** ** Witness: the constants of the source, a seeded generator *)

Lemma startup_ok_witness :
  ∃ g, startup maze_game_settings (gen_fuel 21 21) 42%N 0 = Some (Ok g) ∧
       game_ok maze_game_settings g ∧
       cell_at (maze g) (exit_pos g) = Some Open ∧
       player_pos g = (1, 1) ∧ move_delay g = 200 ∧
       last_move_time g = 0 ∧ movement_direction g = None ∧
       game_won g = false ∧ display_start_message g = true.
Proof. apply (startup_ok maze_game_settings maze_game_settings_ok); done. Defined.

Lemma startup_raises_iff_witness :
  startup (Settings 1 5 20 200 50 10) (gen_fuel 1 5) 42%N 0 = Some (Raise IndexError) ↔
  1 < 2 ∨ 5 < 2.
Proof. apply (startup_raises_iff (Settings 1 5 20 200 50 10)). done. Defined.
