(* ===== verification/Movement.v ===== *)
(** * The movement controller

    The part of the main loop of [src/maze_game.py] that runs while the
    game is being played (lines 160-196): read the held keys, choose the
    movement direction, move the player when the delay has elapsed, speed
    up, and detect the win.  [update] is that block; [choose] and
    [update_spec] are its specification as total functions, and the
    theorems show that under the invariant [game_ok] the block raises
    nothing, equals its specification, never moves the player into a wall,
    and keeps the delay within its bounds. *)

From S2P Require Import Prelude PyList Grid Lattice Generator Game.
From stdpp Require Import base tactics option list numbers gmap relations.

#[local] Open Scope Z_scope.

(** [keys = pygame.key.get_pressed()], at the four indices the loop reads. *)
Record keys : Type := Keys {
  K_UP : bool;
  K_DOWN : bool;
  K_LEFT : bool;
  K_RIGHT : bool;
}.

(** [keys[K] and maze[i][j] == " "]: the cell is read only when the key is
    held. *)
Definition held_open (m : grid) (held : bool) (i j : Z) : result bool :=
  if held then c ← grid_get m i j; Ok (bool_decide (c = Open)) else Ok false.

(** Lines 164-176: the [if]/[elif] chain that sets [movement_direction],
    and resets [move_delay] in its [else]. *)
Definition detect_direction (cfg : settings) (k : keys) (g : game) : result game :=
  let r := (player_pos g).1 in
  let c := (player_pos g).2 in
  up ← held_open (maze g) (K_UP k) (r - 1) c;
  if up : bool then Ok (with_movement_direction (Some UP) g) else
  down ← held_open (maze g) (K_DOWN k) (r + 1) c;
  if down : bool then Ok (with_movement_direction (Some DOWN) g) else
  left ← held_open (maze g) (K_LEFT k) r (c - 1);
  if left : bool then Ok (with_movement_direction (Some LEFT) g) else
  right ← held_open (maze g) (K_RIGHT k) r (c + 1);
  if right : bool then Ok (with_movement_direction (Some RIGHT) g) else
  Ok (with_move_delay (initial_move_delay cfg) (with_movement_direction None g)).

(** Lines 181-188: the player's position after one move. *)
Definition move_player (d : direction) (p : pos) : pos :=
  match d with
  | UP => (p.1 - 1, p.2)
  | DOWN => (p.1 + 1, p.2)
  | LEFT => (p.1, p.2 - 1)
  | RIGHT => (p.1, p.2 + 1)
  end.

(** Line 192: [max(min_move_delay, move_delay - acceleration_rate)]. *)
Definition accelerate (cfg : settings) (delay : Z) : Z :=
  Z.max (min_move_delay cfg) (delay - acceleration_rate cfg).

(** Lines 179-192: [if movement_direction and current_time -
    last_move_time > move_delay: ...]. *)
Definition apply_move (cfg : settings) (current_time : Z) (g : game) : game :=
  match movement_direction g with
  | Some d =>
      if decide (move_delay g < current_time - last_move_time g) then
        with_move_delay (accelerate cfg (move_delay g))
          (with_last_move_time current_time
            (with_player_pos (move_player d (player_pos g)) g))
      else g
  | None => g
  end.

(** Lines 195-196: [if player_pos == exit_pos: game_won = True]. *)
Definition check_win (g : game) : game :=
  if decide (player_pos g = exit_pos g) then with_game_won true g else g.

(** Lines 160-196, the body of [if not game_won and not
    display_start_message:]. *)
Definition update (cfg : settings) (k : keys) (current_time : Z) (g : game)
    : result game :=
  g' ← detect_direction cfg k g;
  Ok (check_win (apply_move cfg current_time g')).

(** Lines 158-196: the game is updated only while it is being played. *)
Definition tick (cfg : settings) (k : keys) (current_time : Z) (g : game)
    : result game :=
  if negb (game_won g) && negb (display_start_message g)
  then update cfg k current_time g
  else Ok g.

(** Successive iterations of the loop, one per sample of the keys and of
    the clock. *)
Fixpoint ticks (cfg : settings) (inputs : list (keys * Z)) (g : game) : result game :=
  match inputs with
  | [] => Ok g
  | (k, current_time) :: inputs' =>
      g' ← tick cfg k current_time g; ticks cfg inputs' g'
  end.

(** ** Specification *)

Definition held (k : keys) (d : direction) : bool :=
  match d with
  | UP => K_UP k
  | DOWN => K_DOWN k
  | LEFT => K_LEFT k
  | RIGHT => K_RIGHT k
  end.

(** A direction is wanted when its key is held and the cell next to the
    player in that direction is open. *)
Definition wanted (k : keys) (g : game) (d : direction) : Prop :=
  held k d = true ∧ cell_at (maze g) (move_player d (player_pos g)) = Some Open.

#[export] Instance wanted_dec k g d : Decision (wanted k g d).
Proof. unfold wanted. apply _. Defined.


(** The first wanted direction in the order up, down, left, right. *)
Definition choose (k : keys) (g : game) : option direction :=
  if decide (wanted k g UP) then Some UP
  else if decide (wanted k g DOWN) then Some DOWN
  else if decide (wanted k g LEFT) then Some LEFT
  else if decide (wanted k g RIGHT) then Some RIGHT
  else None.

Definition detect_spec (cfg : settings) (k : keys) (g : game) : game :=
  match choose k g with
  | Some d => with_movement_direction (Some d) g
  | None => with_move_delay (initial_move_delay cfg) (with_movement_direction None g)
  end.

Definition update_spec (cfg : settings) (k : keys) (current_time : Z) (g : game) : game :=
  check_win (apply_move cfg current_time (detect_spec cfg k g)).

(** The loop as a total function on the states of the invariant. *)
Definition tick_spec (cfg : settings) (k : keys) (current_time : Z) (g : game) : game :=
  if negb (game_won g) && negb (display_start_message g)
  then update_spec cfg k current_time g
  else g.

Definition ticks_spec (cfg : settings) (inputs : list (keys * Z)) (g : game) : game :=
  foldl (λ g' '(k, current_time), tick_spec cfg k current_time g') g inputs.

(** Keys for the witnesses and for driving the player. *)

Definition no_keys : keys := Keys false false false false.
Definition only (d : direction) : keys :=
  Keys (bool_decide (d = UP)) (bool_decide (d = DOWN))
       (bool_decide (d = LEFT)) (bool_decide (d = RIGHT)).

(** ** Lemmas *)

Section movement.
Context (cfg : settings) (Hcfg : settings_ok cfg).
Implicit Types (g : game) (k : keys) (d : direction) (t : Z).

Lemma move_player_adjacent d p : adjacent p (move_player d p).
Proof. destruct d; pos_lia. Qed.

Lemma game_ok_player_in_bounds g :
  game_ok cfg g → in_bounds (HEIGHT cfg) (WIDTH cfg) (player_pos g).
Proof. intros Hok. apply (ok_enclosed _ _ Hok), (ok_player _ _ Hok). Qed.

(** Every cell next to the player is inside the grid: the reads of lines
    164-170 are in range, and do not wrap around. *)
Lemma neighbour_cell_at g d :
  game_ok cfg g → is_Some (cell_at (maze g) (move_player d (player_pos g))).
Proof.
  intros Hok. pose proof (game_ok_player_in_bounds g Hok).
  apply (grid_dims_cell_at _ _ _ _ (ok_dims _ _ Hok)). destruct d; pos_lia.
Qed.

Lemma held_open_spec g k d :
  game_ok cfg g →
  held_open (maze g) (held k d) (move_player d (player_pos g)).1
    (move_player d (player_pos g)).2 = Ok (bool_decide (wanted k g d)).
Proof.
  intros Hok. unfold held_open.
  destruct (held k d) eqn:Hheld.
  - destruct (neighbour_cell_at g d Hok) as [c Hc]. rewrite (grid_get_Ok _ _ _ Hc).
    simpl. f_equal. apply bool_decide_ext. unfold wanted. rewrite Hheld, Hc. naive_solver.
  - rewrite bool_decide_eq_false_2; [done|]. unfold wanted. rewrite Hheld. by intros [? ?].
Qed.

(** Under the invariant, the chain of tests of lines 164-176 raises
    nothing and chooses the first wanted direction in the order up, down,
    left, right; when none is wanted it clears the direction and resets
    the delay. *)
Lemma detect_direction_eq g k :
  game_ok cfg g → detect_direction cfg k g = Ok (detect_spec cfg k g).
Proof.
  intros Hok. unfold detect_direction, detect_spec, choose.
  pose proof (held_open_spec g k UP Hok) as Hu. pose proof (held_open_spec g k DOWN Hok) as Hd.
  pose proof (held_open_spec g k LEFT Hok) as Hl. pose proof (held_open_spec g k RIGHT Hok) as Hr.
  simpl in *. unfold choose. rewrite Hu, !decide_bool_decide. simpl.
  destruct (bool_decide (wanted k g UP)); [done|]. rewrite Hd. simpl.
  destruct (bool_decide (wanted k g DOWN)); [done|]. rewrite Hl. simpl.
  destruct (bool_decide (wanted k g LEFT)); [done|]. rewrite Hr. simpl.
  by destruct (bool_decide (wanted k g RIGHT)).
Qed.

Lemma choose_wanted k g d : choose k g = Some d → wanted k g d.
Proof. unfold choose. repeat case_decide; naive_solver. Qed.

Lemma choose_None k g : choose k g = None ↔ ∀ d, ¬ wanted k g d.
Proof.
  unfold choose. split.
  - repeat case_decide; try done. by intros _ [].
  - intros Hn. by rewrite !decide_False by apply Hn.
Qed.


(** Under the invariant the update block raises nothing and equals its
    specification [update_spec]. *)
Lemma update_eq_spec g k t :
  game_ok cfg g → update cfg k t g = Ok (update_spec cfg k t g).
Proof. intros. unfold update. by rewrite detect_direction_eq. Qed.

(** *** The invariant is kept *)

Lemma detect_spec_ok g k : game_ok cfg g → game_ok cfg (detect_spec cfg k g).
Proof.
  intros [????]. unfold detect_spec. destruct Hcfg.
  destruct (choose k g); split; simpl; try done; lia.
Qed.

Lemma detect_spec_direction g k :
  movement_direction (detect_spec cfg k g) = choose k g.
Proof. unfold detect_spec. by destruct (choose k g). Qed.

Lemma apply_move_ok g t :
  game_ok cfg g →
  (∀ d, movement_direction g = Some d →
        cell_at (maze g) (move_player d (player_pos g)) = Some Open) →
  game_ok cfg (apply_move cfg t g).
Proof.
  intros Hok Hd. unfold apply_move. destruct (movement_direction g) as [d|]; [|done].
  case_decide; [|done]. destruct Hok, Hcfg. split; simpl; auto. unfold accelerate. lia.
Qed.

Lemma check_win_ok g : game_ok cfg g → game_ok cfg (check_win g).
Proof. intros [????]. unfold check_win. by case_decide. Qed.

Lemma update_spec_ok g k t : game_ok cfg g → game_ok cfg (update_spec cfg k t g).
Proof.
  intros Hok. apply check_win_ok, apply_move_ok; [by apply detect_spec_ok|].
  intros d. rewrite detect_spec_direction. intros Hd%choose_wanted.
  unfold detect_spec. by destruct (choose k g); apply Hd.
Qed.

Lemma update_spec_maze g k t : maze (update_spec cfg k t g) = maze g.
Proof.
  unfold update_spec, check_win, apply_move, detect_spec.
  by repeat (case_decide || case_match).
Qed.

(** The update when a move is due, and when none is chosen. *)
Lemma update_spec_moves g k t d :
  choose k g = Some d → move_delay g < t - last_move_time g →
  update_spec cfg k t g =
  check_win
    (with_move_delay (accelerate cfg (move_delay g))
      (with_last_move_time t
        (with_player_pos (move_player d (player_pos g))
          (with_movement_direction (Some d) g)))).
Proof.
  intros Hd Ht. unfold update_spec, apply_move, detect_spec. rewrite Hd. simpl.
  by rewrite (decide_True (P := move_delay g < t - last_move_time g)).
Qed.

Lemma update_spec_idle g k t :
  choose k g = None →
  update_spec cfg k t g =
  check_win (with_move_delay (initial_move_delay cfg) (with_movement_direction None g)).
Proof. intros Hd. unfold update_spec, apply_move, detect_spec. by rewrite Hd. Qed.

(** An update leaves the player in place or moves it to a wanted cell. *)
Lemma update_spec_player g k t :
  player_pos (update_spec cfg k t g) = player_pos g ∨
  ∃ d, wanted k g d ∧ player_pos (update_spec cfg k t g) = move_player d (player_pos g).
Proof.
  unfold update_spec, check_win, apply_move. rewrite detect_spec_direction.
  destruct (choose k g) as [d|] eqn:Hd.
  - apply choose_wanted in Hd. unfold detect_spec.
    repeat (case_decide || case_match); simpl; eauto.
  - unfold detect_spec. rewrite Hd. case_decide; auto.
Qed.

Lemma update_spec_exit g k t : exit_pos (update_spec cfg k t g) = exit_pos g.
Proof.
  unfold update_spec, check_win, apply_move, detect_spec.
  by repeat (case_decide || case_match).
Qed.

Lemma update_spec_start g k t :
  display_start_message (update_spec cfg k t g) = display_start_message g.
Proof.
  unfold update_spec, check_win, apply_move, detect_spec.
  by repeat (case_decide || case_match).
Qed.

Lemma check_win_player g : player_pos (check_win g) = player_pos g.
Proof. unfold check_win. by case_decide. Qed.

Lemma check_win_exit g : exit_pos (check_win g) = exit_pos g.
Proof. unfold check_win. by case_decide. Qed.

Lemma check_win_start g : display_start_message (check_win g) = display_start_message g.
Proof. unfold check_win. by case_decide. Qed.

Lemma check_win_won g :
  game_won (check_win g) = game_won g || bool_decide (player_pos g = exit_pos g).
Proof.
  unfold check_win. case_bool_decide; simpl; [by rewrite decide_True, orb_true_r|].
  by rewrite decide_False, orb_false_r.
Qed.

Lemma update_spec_won g k t :
  game_won (update_spec cfg k t g) =
  game_won g || bool_decide (player_pos (update_spec cfg k t g) = exit_pos g).
Proof.
  rewrite <-(update_spec_exit g k t). unfold update_spec.
  rewrite check_win_won, check_win_player, check_win_exit. f_equal.
  unfold apply_move, detect_spec. by repeat (case_decide || case_match).
Qed.

(** C2: the update block keeps the invariant of the game and never raises:
    every subscript it evaluates is in range, the player stays on an open
    cell (it never enters a wall), the maze is not modified and the delay
    stays within its bounds. *)
Theorem update_safe g k t :
  game_ok cfg g →
  ∃ g', update cfg k t g = Ok g' ∧ game_ok cfg g' ∧ maze g' = maze g.
Proof.
  intros Hok. exists (update_spec cfg k t g).
  eauto using update_eq_spec, update_spec_ok, update_spec_maze.
Qed.

(** *** What one update does *)

(** C11: when a direction is wanted and more than [move_delay]
    milliseconds have passed since the last move, the player moves one
    cell in the chosen direction, onto an open cell, the time of the move
    is recorded and the delay shrinks by [acceleration_rate], but not
    below [min_move_delay]. *)
Theorem update_moves g k t d :
  game_ok cfg g → choose k g = Some d →
  move_delay g < t - last_move_time g →
  ∃ g', update cfg k t g = Ok g' ∧
        player_pos g' = move_player d (player_pos g) ∧
        cell_at (maze g') (player_pos g') = Some Open ∧
        last_move_time g' = t ∧ movement_direction g' = Some d ∧
        move_delay g' = Z.max (min_move_delay cfg) (move_delay g - acceleration_rate cfg).
Proof.
  intros Hok Hd Ht. eexists. split; [by apply update_eq_spec|].
  pose proof (ok_player _ _ (update_spec_ok g k t Hok)) as Hp. revert Hp.
  rewrite (update_spec_moves g k t d Hd Ht). unfold check_win. by case_decide.
Qed.

(** C12: until more than [move_delay] milliseconds have passed, nothing
    moves: the test is strict, so the frame at exactly [last_move_time +
    move_delay] does not move the player either; and while a direction
    stays wanted the delay is left as it is. *)
Theorem update_waits g k t :
  game_ok cfg g → t - last_move_time g ≤ move_delay g →
  ∃ g', update cfg k t g = Ok g' ∧
        player_pos g' = player_pos g ∧ last_move_time g' = last_move_time g ∧
        (is_Some (choose k g) → move_delay g' = move_delay g).
Proof.
  intros Hok Ht. eexists. split; [by apply update_eq_spec|].
  assert (move_delay g ≤ initial_move_delay cfg) by (destruct Hok; lia).
  unfold update_spec, check_win, apply_move, detect_spec.
  destruct (choose k g); simpl; repeat case_decide; simpl;
    repeat split; try done; try lia; by intros [? ?].
Qed.

(** C5: when no direction is wanted (no key is held, or every held key
    points at a wall) the player stays where it is and the delay is reset
    to [initial_move_delay]: holding a key against a wall resets the
    acceleration. *)
Theorem update_blocked g k t :
  game_ok cfg g → (∀ d, held k d = true →
    cell_at (maze g) (move_player d (player_pos g)) ≠ Some Open) →
  ∃ g', update cfg k t g = Ok g' ∧
        player_pos g' = player_pos g ∧ movement_direction g' = None ∧
        move_delay g' = initial_move_delay cfg.
Proof.
  intros Hok Hblocked. eexists. split; [by apply update_eq_spec|].
  assert (choose k g = None) as Hc.
  { apply choose_None. intros d [? ?]. by eapply Hblocked. }
  rewrite (update_spec_idle g k t Hc). unfold check_win. by case_decide.
Qed.

(** C14: an update sets [game_won] exactly when the player stands on the
    exit after it, and never clears it. *)
Theorem update_win_iff g k t g' :
  game_ok cfg g → update cfg k t g = Ok g' →
  game_won g' = true ↔ game_won g = true ∨ player_pos g' = exit_pos g'.
Proof.
  intros Hok. rewrite update_eq_spec by done. intros [= <-].
  unfold update_spec, check_win, apply_move, detect_spec.
  destruct (choose k g); simpl; repeat case_decide; simpl in *; naive_solver.
Qed.

(** C18: the delay never grows while a direction is wanted: across the
    moves of a held key it is non-increasing. *)
Theorem update_delay_nonincreasing g k t g' :
  game_ok cfg g → is_Some (choose k g) → update cfg k t g = Ok g' →
  move_delay g' ≤ move_delay g.
Proof.
  intros Hok [d Hd]. rewrite update_eq_spec by done. intros [= <-].
  destruct Hok, Hcfg. unfold update_spec, check_win, apply_move, detect_spec, accelerate.
  rewrite Hd. simpl. repeat case_decide; simpl; lia.
Qed.

(** C19: the acceleration schedule.  After [n] moves in a row the delay
    is [max(min_move_delay, delay - n * acceleration_rate)]: it falls by
    [acceleration_rate] per move until it reaches [min_move_delay], and
    stays there. *)
Theorem accelerate_iter (n : nat) (delay : Z) :
  min_move_delay cfg ≤ delay →
  Nat.iter n (accelerate cfg) delay =
  Z.max (min_move_delay cfg) (delay - Z.of_nat n * acceleration_rate cfg).
Proof.
  intros Hd. destruct Hcfg as [_ _ _ Hr]. induction n as [|n IH]; [simpl; lia|].
  rewrite Nat.iter_succ, IH. unfold accelerate. lia.
Qed.

(** *** Any number of iterations *)

Lemma tick_eq_spec g k t :
  game_ok cfg g → tick cfg k t g = Ok (tick_spec cfg k t g).
Proof.
  intros Hok. unfold tick, tick_spec.
  destruct (negb _ && negb _); [by apply update_eq_spec|done].
Qed.

Lemma tick_spec_ok g k t : game_ok cfg g → game_ok cfg (tick_spec cfg k t g).
Proof.
  intros Hok. unfold tick_spec.
  destruct (negb _ && negb _); [by apply update_spec_ok|done].
Qed.

Lemma tick_spec_start g k t :
  display_start_message (tick_spec cfg k t g) = display_start_message g.
Proof.
  unfold tick_spec. destruct (negb _ && negb _); [apply update_spec_start|done].
Qed.

Lemma tick_spec_exit g k t : exit_pos (tick_spec cfg k t g) = exit_pos g.
Proof.
  unfold tick_spec. destruct (negb _ && negb _); [apply update_spec_exit|done].
Qed.

(** [game_won] is set by the iteration that finds the player on the exit
    while the game is being played, and never cleared. *)
Lemma tick_spec_won g k t :
  game_won (tick_spec cfg k t g) =
  game_won g ||
  (negb (display_start_message g) &&
   bool_decide (player_pos (tick_spec cfg k t g) = exit_pos g)).
Proof.
  unfold tick_spec. destruct (game_won g) eqn:Hw; [done|].
  destruct (display_start_message g); simpl; [done|]. by rewrite update_spec_won, Hw.
Qed.

Lemma tick_spec_maze g k t : maze (tick_spec cfg k t g) = maze g.
Proof.
  unfold tick_spec. destruct (negb _ && negb _); [apply update_spec_maze|done].
Qed.

(** C10: equivalence.  Under the invariant, any number of iterations of
    the loop raises nothing and computes what the specification
    [ticks_spec], a fold of total functions, computes. *)
Theorem ticks_refine inputs g :
  game_ok cfg g → ticks cfg inputs g = Ok (ticks_spec cfg inputs g).
Proof.
  revert g. induction inputs as [|[k t] inputs IH]; intros g Hok; simpl; [done|].
  rewrite tick_eq_spec by done. simpl. by apply IH, tick_spec_ok.
Qed.

(** C20: the wall-collision invariant for every sequence of held keys and
    clock readings: [ticks] never raises, the maze is never modified and
    the player is on an open cell at the end. *)
Theorem ticks_safe inputs g :
  game_ok cfg g →
  ∃ g', ticks cfg inputs g = Ok g' ∧ game_ok cfg g' ∧ maze g' = maze g.
Proof.
  revert g. induction inputs as [|[k t] inputs IH]; intros g Hok; simpl; [eauto|].
  rewrite tick_eq_spec by done. simpl.
  destruct (IH _ (tick_spec_ok g k t Hok)) as (g' & -> & ? & Hm).
  exists g'. by rewrite Hm, tick_spec_maze.
Qed.

(** An iteration moves the player along a step of a walk, or not at all. *)
Lemma tick_spec_walk g k t :
  game_ok cfg g →
  player_pos (tick_spec cfg k t g) = player_pos g ∨
  walk (opens_of (maze g)) (player_pos g) (player_pos (tick_spec cfg k t g)).
Proof.
  intros Hok. unfold tick_spec. destruct (negb _ && negb _); [|by left].
  destruct (update_spec_player g k t) as [?|(d & [_ Hopen] & ->)]; [by left|right].
  repeat split; [apply elem_of_opens_of, Hok | by apply elem_of_opens_of |].
  apply move_player_adjacent.
Qed.

(** C21: the player only ever walks: wherever it can be walked to from,
    through open cells, before any number of iterations, the place it
    stands on after them can be walked to from there as well.  In
    particular the player never leaves the part of the maze linked to its
    start. *)
Theorem ticks_connected inputs g g' q :
  game_ok cfg g → connected (opens_of (maze g)) q (player_pos g) →
  ticks cfg inputs g = Ok g' →
  connected (opens_of (maze g)) q (player_pos g').
Proof.
  revert g. induction inputs as [|[k t] inputs IH]; intros g Hok Hq; simpl.
  { by intros [= <-]. }
  rewrite tick_eq_spec by done. simpl. intros Hrun.
  rewrite <-(tick_spec_maze g k t). apply IH; [by apply tick_spec_ok| |done].
  rewrite tick_spec_maze. destruct (tick_spec_walk g k t Hok) as [->|Hw]; [done|].
  by eapply connected_r.
Qed.

End movement.

(** ** Witnesses on the corridor *)

Lemma update_safe_witness :
  ∃ g', update corridor_settings (only RIGHT) 250 corridor_game = Ok g' ∧
        game_ok corridor_settings g' ∧ maze g' = corridor.
Proof.
  apply (update_safe corridor_settings corridor_settings_ok corridor_game),
    corridor_game_ok.
Defined.

Lemma update_moves_witness :
  ∃ g', update corridor_settings (only RIGHT) 250 corridor_game = Ok g' ∧
        player_pos g' = (1, 2) ∧
        cell_at (maze g') (player_pos g') = Some Open ∧
        last_move_time g' = 250 ∧ movement_direction g' = Some RIGHT ∧
        move_delay g' = 190.
Proof.
  apply (update_moves corridor_settings corridor_settings_ok corridor_game
           (only RIGHT) 250 RIGHT corridor_game_ok); [reflexivity | simpl; lia].
Defined.

Lemma update_waits_witness :
  ∃ g', update corridor_settings (only RIGHT) 200 corridor_game = Ok g' ∧
        player_pos g' = (1, 1) ∧ last_move_time g' = 0 ∧
        (is_Some (choose (only RIGHT) corridor_game) → move_delay g' = 200).
Proof.
  apply (update_waits corridor_settings corridor_game (only RIGHT) 200 corridor_game_ok).
  simpl. lia.
Defined.

Lemma update_blocked_witness :
  ∃ g', update corridor_settings (only UP) 250 (with_move_delay 120 corridor_game) = Ok g' ∧
        player_pos g' = (1, 1) ∧ movement_direction g' = None ∧
        move_delay g' = 200.
Proof.
  apply (update_blocked corridor_settings (with_move_delay 120 corridor_game) (only UP) 250).
  - by apply (bool_decide_unpack _).
  - by intros [].
Defined.

Lemma update_win_iff_witness :
  game_won (update_spec corridor_settings (only RIGHT) 250
              (with_player_pos (1, 2) corridor_game)) = true ↔
  game_won (with_player_pos (1, 2) corridor_game) = true ∨
  player_pos (update_spec corridor_settings (only RIGHT) 250
                (with_player_pos (1, 2) corridor_game)) =
  exit_pos (update_spec corridor_settings (only RIGHT) 250
              (with_player_pos (1, 2) corridor_game)).
Proof.
  apply (update_win_iff corridor_settings (with_player_pos (1, 2) corridor_game)
           (only RIGHT) 250);
    [by apply (bool_decide_unpack _) | reflexivity].
Defined.

Lemma update_delay_nonincreasing_witness :
  move_delay (update_spec corridor_settings (only RIGHT) 250 corridor_game) ≤ 200.
Proof.
  apply (update_delay_nonincreasing corridor_settings corridor_settings_ok
           corridor_game (only RIGHT) 250);
    [exact corridor_game_ok | by exists RIGHT | reflexivity].
Defined.

Lemma accelerate_iter_witness :
  Nat.iter 15 (accelerate maze_game_settings) 200 = Z.max 50 (200 - 15 * 10).
Proof. apply (accelerate_iter maze_game_settings maze_game_settings_ok 15 200). simpl. lia. Defined.

Lemma ticks_connected_witness :
  connected (opens_of corridor) (1, 1)
    (player_pos (ticks_spec corridor_settings [(only RIGHT, 250); (only RIGHT, 450)]
                   corridor_game)).
Proof.
  apply (ticks_connected corridor_settings corridor_settings_ok
           [(only RIGHT, 250); (only RIGHT, 450)] corridor_game);
    [exact corridor_game_ok | apply rtc_refl | reflexivity].
Defined.

Lemma ticks_refine_witness :
  ticks corridor_settings [(only RIGHT, 250); (only RIGHT, 450)] corridor_game =
  Ok (ticks_spec corridor_settings [(only RIGHT, 250); (only RIGHT, 450)] corridor_game).
Proof.
  apply (ticks_refine corridor_settings corridor_settings_ok), corridor_game_ok.
Defined.

Lemma ticks_safe_witness :
  ∃ g', ticks corridor_settings [(only RIGHT, 250); (only RIGHT, 450)] corridor_game = Ok g' ∧
        game_ok corridor_settings g' ∧ maze g' = corridor.
Proof.
  apply (ticks_safe corridor_settings corridor_settings_ok), corridor_game_ok.
Defined.
