(* ===== verification/Winnable.v ===== *)
(** * Winning the game

    The generator and the movement controller together: from the state
    that start-up builds, some sequence of held keys and clock readings
    takes the player to the exit, unless the width and the height are both
    even, in which case the exit is walled in and no sequence wins. *)

From stdpp Require Import base tactics option list numbers gmap relations.
From S2P Require Import Prelude PyList Grid Random Lattice DfsSpec Generator Game Movement.

#[local] Open Scope Z_scope.

(** The first clock reading at which a move is due. *)
Definition move_due (g : game) : Z := last_move_time g + move_delay g + 1.

(** A state is winnable when some sequence of held keys and clock
    readings takes the loop to a state with [game_won] set. *)
Definition winnable (cfg : settings) (g : game) : Prop :=
  ∃ inputs g', ticks cfg inputs g = Ok g' ∧ game_won g' = true.

(** The exit is walled in: no cell next to it is open. *)
Definition exit_isolated (g : game) : Prop :=
  ∀ q, adjacent q (exit_pos g) → cell_at (maze g) q ≠ Some Open.

(** The states from which no win is possible. *)
Record stuck (cfg : settings) (g : game) : Prop := Stuck {
  stuck_ok : game_ok cfg g;
  stuck_not_won : game_won g = false;
  stuck_away : player_pos g ≠ exit_pos g;
  stuck_isolated : exit_isolated g;
}.

(** The smallest grid with two even dimensions, for the witnesses. *)
Definition even_settings : settings := {|
  WIDTH := 4; HEIGHT := 4; CELL_SIZE := 20;
  initial_move_delay := 200; min_move_delay := 50; acceleration_rate := 10;
|}.

Definition even_game : game := {|
  maze := [[Wall; Wall; Wall; Wall]; [Wall; Open; Wall; Wall];
           [Wall; Wall; Open; Wall]; [Wall; Wall; Wall; Wall]];
  player_pos := (1, 1); exit_pos := (2, 2);
  move_delay := 200; last_move_time := 0; movement_direction := None;
  game_won := false; display_start_message := true;
|}.

Section winning.
Context (cfg : settings) (Hcfg : settings_ok cfg).
Implicit Types (g : game) (k : keys) (d : direction) (t : Z) (p q : pos).

Lemma adjacent_move_player p q : adjacent p q → ∃ d, move_player d p = q.
Proof.
  intros Hpq.
  assert (q = move_player UP p ∨ q = move_player DOWN p ∨
          q = move_player LEFT p ∨ q = move_player RIGHT p) as Hq
    by (unfold move_player; pos_lia).
  destruct Hq as [->|[->|[->| ->]]]; eauto.
Qed.

Lemma choose_only g d :
  cell_at (maze g) (move_player d (player_pos g)) = Some Open →
  choose (only d) g = Some d.
Proof.
  intros Hopen. unfold choose, wanted.
  destruct d; simpl; repeat case_decide; naive_solver.
Qed.

Lemma choose_no_keys g : choose no_keys g = None.
Proof. apply choose_None. intros d [Hd _]. by destruct d. Qed.

(** One iteration with one key held and a move due. *)
Lemma tick_spec_moves g d :
  game_won g = false → display_start_message g = false →
  cell_at (maze g) (move_player d (player_pos g)) = Some Open →
  let g' := tick_spec cfg (only d) (move_due g) g in
  player_pos g' = move_player d (player_pos g) ∧ exit_pos g' = exit_pos g ∧
  display_start_message g' = false.
Proof.
  intros Hwon Hstart Hopen. unfold tick_spec. rewrite Hwon, Hstart. simpl.
  rewrite (update_spec_moves cfg g _ _ d); [|by apply choose_only|unfold move_due; lia].
  by rewrite check_win_player, check_win_exit, check_win_start.
Qed.

(** One iteration on the exit sets [game_won]. *)
Lemma tick_spec_at_exit g :
  display_start_message g = false → player_pos g = exit_pos g →
  game_won (tick_spec cfg no_keys (last_move_time g) g) = true.
Proof.
  intros Hstart Hp. unfold tick_spec. rewrite Hstart.
  destruct (game_won g) eqn:Hwon; simpl; [done|].
  rewrite update_spec_idle by apply choose_no_keys.
  rewrite check_win_won. simpl. rewrite bool_decide_eq_true_2 by done. apply orb_true_r.
Qed.

Lemma winnable_path o e p :
  rtc (walk o) p e →
  ∀ g, game_ok cfg g → display_start_message g = false →
       opens_of (maze g) = o → exit_pos g = e → player_pos g = p →
       winnable cfg g.
Proof.
  induction 1 as [p|p q e (_ & Hq & Hpq) _ IH]; intros g Hok Hstart Ho He Hp.
  - exists [(no_keys, last_move_time g)]. eexists. simpl.
    rewrite tick_eq_spec by done. split; [done|]. apply tick_spec_at_exit; congruence.
  - destruct (game_won g) eqn:Hwon; [by exists [], g|].
    destruct (adjacent_move_player p q Hpq) as [d Hd].
    assert (cell_at (maze g) (move_player d (player_pos g)) = Some Open) as Hopen.
    { rewrite Hp, Hd. apply elem_of_opens_of. by rewrite Ho. }
    destruct (tick_spec_moves g d Hwon Hstart Hopen) as (Hp' & He' & Hs').
    destruct (IH (tick_spec cfg (only d) (move_due g) g)) as (inputs & g' & Hrun & Hw);
      [by apply tick_spec_ok | done | by rewrite tick_spec_maze | congruence | congruence |].
    exists ((only d, move_due g) :: inputs), g'. simpl.
    by rewrite tick_eq_spec by done.
Qed.

(** *** The exit is linked unless both dimensions are even *)

Section start_state.
Context (t0 : Z) (m : grid).
Context (Hdims : grid_dims m (HEIGHT cfg) (WIDTH cfg)).
Context (Hperf : perfect_maze (HEIGHT cfg) (WIDTH cfg) (opens_of m)).

#[local] Abbreviation ex := (HEIGHT cfg - 2, WIDTH cfg - 2).

Lemma start_game_opens :
  opens_of (maze (start_game cfg t0 m)) = {[ex]} ∪ opens_of m.
Proof.
  simpl. apply opens_of_update_Open.
  eapply in_bounds_cell_at; [done | by apply exit_in_bounds].
Qed.

(** A node of the maze on the exit or next to it. *)
Lemma exit_node :
  WIDTH cfg `mod` 2 = 1 ∨ HEIGHT cfg `mod` 2 = 1 →
  ∃ n, node n ∧ in_bounds (HEIGHT cfg) (WIDTH cfg) n ∧ (n = ex ∨ adjacent n ex).
Proof.
  intros Hodd. destruct Hcfg as [Hw Hh _ _].
  destruct (decide (HEIGHT cfg `mod` 2 = 1)); [destruct (decide (WIDTH cfg `mod` 2 = 1))|].
  - exists ex. pos_lia.
  - exists (HEIGHT cfg - 2, WIDTH cfg - 3). pos_lia.
  - exists (HEIGHT cfg - 3, WIDTH cfg - 2). pos_lia.
Qed.

Lemma start_game_linked :
  WIDTH cfg `mod` 2 = 1 ∨ HEIGHT cfg `mod` 2 = 1 →
  connected (opens_of (maze (start_game cfg t0 m))) (1, 1) ex.
Proof.
  intros (n & Hn & Hin & Hex)%exit_node. rewrite start_game_opens.
  assert (opens_of m ⊆ {[ex]} ∪ opens_of m) as Hsub by set_solver.
  assert (connected ({[ex]} ∪ opens_of m) (1, 1) n) as Hpath.
  { rewrite <-Hsub. by apply (perfect_linked _ _ _ Hperf), (perfect_complete _ _ _ Hperf). }
  destruct Hex as [->|Hadj]; [done|].
  eapply connected_r; [done|]. split; [|split; [set_solver|done]].
  apply elem_of_union_r. by apply (perfect_complete _ _ _ Hperf).
Qed.

Lemma start_game_isolated :
  WIDTH cfg `mod` 2 = 0 → HEIGHT cfg `mod` 2 = 0 → exit_isolated (start_game cfg t0 m).
Proof.
  intros Hw Hh q Hadj. simpl in *. rewrite cell_at_update_ne by (intros <-; pos_lia).
  intros Hq%elem_of_opens_of.
  destruct (perfect_shaped _ _ _ Hperf q Hq) as [Hnode|[(? & ? & _ & Hend)|(? & ? & _ & Hend)]].
  - pos_lia.
  - apply (perfect_interior _ _ _ Hperf) in Hend. pos_lia.
  - apply (perfect_interior _ _ _ Hperf) in Hend. pos_lia.
Qed.

End start_state.

(** *** No win from a walled-in exit *)

Lemma tick_spec_stuck g k t : stuck cfg g → stuck cfg (tick_spec cfg k t g).
Proof.
  intros [Hok Hwon Haway Hiso]. unfold tick_spec.
  destruct (negb _ && negb _); [|done].
  assert (player_pos (update_spec cfg k t g) ≠ exit_pos g) as Haway'.
  { destruct (update_spec_player cfg g k t) as [->|(d & [_ Hopen] & Hp)]; [done|].
    intros He. apply (Hiso (player_pos g)); [|by apply (ok_player _ _ Hok)].
    rewrite <-He, Hp. apply move_player_adjacent. }
  split.
  - by apply update_spec_ok.
  - by rewrite update_spec_won, Hwon, bool_decide_eq_false_2.
  - by rewrite update_spec_exit.
  - intros q. rewrite update_spec_exit, update_spec_maze. apply Hiso.
Qed.

Lemma ticks_stuck inputs g g' : stuck cfg g → ticks cfg inputs g = Ok g' → stuck cfg g'.
Proof.
  revert g. induction inputs as [|[k t] inputs IH]; intros g Hs; simpl; [by intros [= <-]|].
  rewrite tick_eq_spec by apply Hs. simpl. by apply IH, tick_spec_stuck.
Qed.

(** C23: liveness.  From every state of the invariant in which the game
    is being played and the exit can be walked to from the player through
    open cells, some sequence of held keys and clock readings wins the
    game. *)
Theorem reachable_exit_wins g :
  game_ok cfg g → display_start_message g = false →
  connected (opens_of (maze g)) (player_pos g) (exit_pos g) →
  winnable cfg g.
Proof. intros Hok Hstart Hpath. by eapply winnable_path. Qed.

Section from_startup.
Context `{RandomSource R} (fuel : nat) (rng : R) (t0 : Z).
Context (Hfuel : (gen_fuel (WIDTH cfg) (HEIGHT cfg) ≤ fuel)%nat).

(** C22: the game can be won.  When the width or the height is odd, the
    state start-up builds, once a key has dismissed the start message, has
    a sequence of held keys and clock readings that ends with [game_won]
    set, for every random source. *)
Theorem startup_winnable :
  WIDTH cfg `mod` 2 = 1 ∨ HEIGHT cfg `mod` 2 = 1 →
  ∃ g, startup cfg fuel rng t0 = Some (Ok g) ∧
       winnable cfg (with_display_start_message false g).
Proof.
  intros Hodd. destruct (startup_eq cfg Hcfg fuel rng t0 Hfuel) as (m & Hdims & Hperf & ->).
  exists (start_game cfg t0 m). split; [done|].
  apply (winnable_path _ _ _ (start_game_linked t0 m Hdims Hperf Hodd)); [|done..].
  by destruct (start_game_ok cfg Hcfg t0 m Hdims Hperf).
Qed.

(** C8: when the width and the height are both even, the exit is walled
    in and the game cannot be won: no sequence of held keys and clock
    readings sets [game_won]. *)
Theorem even_dims_unwinnable g :
  WIDTH cfg `mod` 2 = 0 → HEIGHT cfg `mod` 2 = 0 →
  startup cfg fuel rng t0 = Some (Ok g) →
  ¬ winnable cfg (with_display_start_message false g).
Proof.
  intros Hw Hh. destruct (startup_eq cfg Hcfg fuel rng t0 Hfuel) as (m & Hdims & Hperf & ->).
  intros [= <-] (inputs & g' & Hrun & Hwon).
  enough (game_won g' = false) by congruence.
  eapply stuck_not_won, ticks_stuck; [|done].
  destruct (start_game_ok cfg Hcfg t0 m Hdims Hperf). split; try done.
  - simpl. destruct Hcfg. pos_lia.
  - by apply start_game_isolated.
Qed.

End from_startup.

End winning.

(** ** Witnesses *)

Lemma corridor_linked :
  connected (opens_of (maze corridor_game)) (player_pos corridor_game) (exit_pos corridor_game).
Proof.
  assert (∀ p, cell_at corridor p = Some Open → p ∈ opens_of corridor) as Hopen
    by (intros p; apply elem_of_opens_of).
  apply (rtc_l _ _ (1, 2)); [by repeat split; try apply Hopen|].
  apply rtc_once. by repeat split; try apply Hopen.
Qed.

Lemma reachable_exit_wins_witness : winnable corridor_settings corridor_game.
Proof.
  apply (reachable_exit_wins corridor_settings corridor_settings_ok corridor_game
           corridor_game_ok eq_refl corridor_linked).
Defined.

Lemma startup_winnable_witness :
  ∃ g, startup maze_game_settings (gen_fuel 21 21) 42%N 0 = Some (Ok g) ∧
       winnable maze_game_settings (with_display_start_message false g).
Proof.
  apply (startup_winnable maze_game_settings maze_game_settings_ok); [done|by left].
Defined.

Lemma even_settings_ok : settings_ok even_settings.
Proof. by apply (bool_decide_unpack _). Qed.

Lemma even_dims_unwinnable_witness :
  ¬ winnable even_settings (with_display_start_message false even_game).
Proof.
  apply (even_dims_unwinnable even_settings even_settings_ok (gen_fuel 4 4) 42%N 0
           (le_n _) even_game); reflexivity.
Defined.
