(* ===== verification/Render.v ===== *)
(** * Rendering

    The drawing functions of [src/maze_game.py] (lines 58-124) and the
    colour constants they use.  The calls into pygame are the constructors
    of [cmd], in the order the code issues them, with the arguments it
    passes; a drawing function is the list of its calls.  The size of a
    rendered text comes from the font, through the interface
    [TextMetrics]. *)

From stdpp Require Import base tactics option list numbers strings.
From S2P Require Import Prelude PyList Grid Lattice Game.

#[local] Open Scope Z_scope.

Abbreviation color := (Z * Z * Z)%type.

Definition BACKGROUND_COLOR : color := (30, 30, 30).
Definition WALL_COLOR : color := (50, 50, 50).
Definition PATH_COLOR : color := (200, 200, 200).
Definition PLAYER_COLOR : color := (0, 128, 255).
Definition EXIT_COLOR : color := (255, 100, 100).
Definition TEXT_COLOR : color := (255, 255, 255).
Definition SHADOW_COLOR : color := (0, 0, 0).

(** [font_large = pygame.font.Font(None, 72)],
    [font_small = pygame.font.Font(None, 28)] *)
Inductive font : Set :=
| font_large
| font_small.

Definition font_size (f : font) : Z :=
  match f with font_large => 72 | font_small => 28 end.

(** A [pygame.Rect], or the tuple [(left, top, width, height)]. *)
Record rect : Type := Rect {
  rect_left : Z;
  rect_top : Z;
  rect_width : Z;
  rect_height : Z;
}.

(** The surfaces the program creates: a rendered text and the overlay of
    the win message. *)
Inductive surface : Type :=
| Text (message : string) (f : font) (c : color)
| Overlay (width height alpha : Z) (c : color).

(** The calls on [screen], [pygame.display] and [pygame.time].  The
    optional arguments of [pygame.draw.rect] are [None] where the call
    does not pass them. *)
Inductive cmd : Type :=
| Fill (c : color)
| DrawRect (c : color) (r : rect) (width : option Z) (border_radius : option Z)
| Blit (s : surface) (x y : Z)
| Flip
| Wait (ms : Z)
| Quit.

#[export] Instance font_eq_dec : EqDecision font.
Proof. solve_decision. Defined.
#[export] Instance rect_eq_dec : EqDecision rect.
Proof. solve_decision. Defined.
#[export] Instance surface_eq_dec : EqDecision surface.
Proof. solve_decision. Defined.
#[export] Instance cmd_eq_dec : EqDecision cmd.
Proof. solve_decision. Defined.

(** The size in pixels of [font.render(message, ...)]. *)
Class TextMetrics : Type := {
  text_size : font → string → Z * Z;
  text_size_nonneg f s : 0 ≤ (text_size f s).1 ∧ 0 ≤ (text_size f s).2;
}.

(** Metrics that make the model executable: every character as wide as
    half the font size.  The theorems hold for every instance. *)
Definition monospace_size (f : font) (s : string) : Z * Z :=
  (font_size f `div` 2 * Z.of_nat (String.length s), font_size f).

#[refine] Definition monospace_metrics : TextMetrics :=
  {| text_size := monospace_size |}.
Proof.
  intros f s. unfold monospace_size. simpl.
  assert (0 ≤ font_size f `div` 2) by (destruct f; by vm_compute).
  split; [nia | by destruct f].
Defined.

(** [surface.get_rect(center=(cx, cy))]: the rectangle of the given size
    whose centre is [(cx, cy)], rounded towards the top left. *)
Definition rect_centered (size : Z * Z) (cx cy : Z) : rect :=
  Rect (cx - size.1 `div` 2) (cy - size.2 `div` 2) size.1 size.2.

(** [rect.move_ip(dx, dy)] on a copy. *)
Definition rect_move (r : rect) (dx dy : Z) : rect :=
  Rect (rect_left r + dx) (rect_top r + dy) (rect_width r) (rect_height r).

(** [rect_inside r w h]: the rectangle lies on a surface of size [w], [h]. *)
Definition rect_inside (r : rect) (w h : Z) : Prop :=
  0 ≤ rect_left r ∧ rect_left r + rect_width r ≤ w ∧
  0 ≤ rect_top r ∧ rect_top r + rect_height r ≤ h.

#[export] Instance rect_inside_dec r w h : Decision (rect_inside r w h).
Proof. unfold rect_inside. apply _. Defined.

(** [rect_contains r px py]: the pixel [(px, py)] is painted by a filled
    rectangle [r]. *)
Definition rect_contains (r : rect) (px py : Z) : Prop :=
  (rect_left r ≤ px ∧ px < rect_left r + rect_width r) ∧
  (rect_top r ≤ py ∧ py < rect_top r + rect_height r).

#[export] Instance rect_contains_dec r px py : Decision (rect_contains r px py).
Proof. unfold rect_contains. apply _. Defined.

Section drawing.
Context (cfg : settings).

(** [PATH_COLOR if cell == " " else WALL_COLOR] *)
Definition cell_color (c : cell) : color :=
  if decide (c = Open) then PATH_COLOR else WALL_COLOR.

(** [(x * CELL_SIZE, y * CELL_SIZE, CELL_SIZE, CELL_SIZE)]: the column
    gives the horizontal coordinate and the row the vertical one. *)
Definition cell_rect (row col : Z) : rect :=
  Rect (col * CELL_SIZE cfg) (row * CELL_SIZE cfg) (CELL_SIZE cfg) (CELL_SIZE cfg).

(** Lines 58-64. *)
Definition draw_maze (maze : grid) : list cmd :=
  mjoin (imap (λ y row,
    imap (λ x cell,
      DrawRect (cell_color cell) (cell_rect (Z.of_nat y) (Z.of_nat x)) None None) row)
    maze).

(** The glow rectangle of lines 76-81 and 94-99. *)
Definition glow_rect (p : pos) : rect :=
  Rect (p.2 * CELL_SIZE cfg - 2) (p.1 * CELL_SIZE cfg - 2)
       (CELL_SIZE cfg + 4) (CELL_SIZE cfg + 4).

(** Lines 68-82. *)
Definition draw_player (player_pos : pos) : list cmd :=
  [DrawRect PLAYER_COLOR (cell_rect player_pos.1 player_pos.2) None (Some 6);
   DrawRect (0, 180, 255) (glow_rect player_pos) (Some 2) (Some 8)].

(** Lines 86-100. *)
Definition draw_exit (exit_pos : pos) : list cmd :=
  [DrawRect EXIT_COLOR (cell_rect exit_pos.1 exit_pos.2) None (Some 6);
   DrawRect (255, 150, 150) (glow_rect exit_pos) (Some 2) (Some 8)].

(** Lines 104-113: the shadow first, 4 pixels down and right, then the
    text, centred on the screen and shifted down by [offset_y]. *)
Definition display_text_with_shadow `{TextMetrics} (message : string) (f : font)
    (c shadow_color : color) (offset_y : Z) : list cmd :=
  let text := Text message f c in
  let shadow := Text message f shadow_color in
  let text_rect :=
    rect_centered (text_size f message)
      (SCREEN_WIDTH cfg `div` 2) (SCREEN_HEIGHT cfg `div` 2 + offset_y) in
  let shadow_rect := rect_move text_rect 4 4 in
  [Blit shadow (rect_left shadow_rect) (rect_top shadow_rect);
   Blit text (rect_left text_rect) (rect_top text_rect)].

(** Lines 117-124. *)
Definition display_win_message `{TextMetrics} : list cmd :=
  let overlay := Overlay (SCREEN_WIDTH cfg) (SCREEN_HEIGHT cfg) 150 (0, 0, 0) in
  Blit overlay 0 0 ::
  display_text_with_shadow "You Win!" font_large (0, 255, 0) SHADOW_COLOR 0.

(** Lines 199-202: what every frame draws before the messages. *)
Definition draw_scene (g : game) : list cmd :=
  Fill BACKGROUND_COLOR :: draw_maze (maze g) ++ draw_exit (exit_pos g) ++
  draw_player (player_pos g).

(** The rectangles a list of calls draws. *)
Definition rects_of (cs : list cmd) : list rect :=
  omap (λ c, match c with DrawRect _ r _ _ => Some r | _ => None end) cs.

(** ** Lemmas *)

Implicit Types (m : grid) (p : pos) (c : cell) (d : cmd).

(** The calls of [draw_maze]: one per cell, in the colour of the cell, on
    the square whose corner is (column, row) times the cell size. *)
Lemma elem_of_draw_maze m d :
  d ∈ draw_maze m ↔
  ∃ p c, cell_at m p = Some c ∧ d = DrawRect (cell_color c) (cell_rect p.1 p.2) None None.
Proof.
  unfold draw_maze. rewrite list_elem_of_join. split.
  - intros (l & Hd & Hl). apply elem_of_lookup_imap in Hl as (i & row & -> & Hrow).
    apply elem_of_lookup_imap in Hd as (j & c & -> & Hc).
    exists (Z.of_nat i, Z.of_nat j), c. split; [|done].
    apply cell_at_Some. exists row. simpl. unfold zlookup.
    by rewrite !decide_True, !Nat2Z.id by lia.
  - intros (p & c & (row & Hrow & Hc)%cell_at_Some & ->).
    pose proof (zlookup_Some_lt _ _ _ Hrow). pose proof (zlookup_Some_lt _ _ _ Hc).
    unfold zlookup in Hrow, Hc.
    rewrite decide_True in Hrow by lia. rewrite decide_True in Hc by lia.
    eexists. split; [|apply elem_of_lookup_imap; by exists (Z.to_nat p.1), row].
    apply elem_of_lookup_imap. exists (Z.to_nat p.2), c. split; [|done].
    by rewrite !Z2Nat.id by lia.
Qed.

Lemma length_draw_rows (rows : list (list cell)) (w : nat) (f : nat → list cell → list cmd) :
  (∀ i row, length (f i row) = length row) →
  Forall (λ row, length row = w) rows →
  length (mjoin (imap f rows)) = (length rows * w)%nat.
Proof.
  intros Hf. revert f Hf. induction rows as [|row rows IH]; intros f Hf Hw; [done|].
  apply Forall_cons in Hw as [Hrow Hw]. rewrite imap_cons. simpl.
  rewrite length_app, Hf, Hrow, IH; [lia | by intros; apply Hf | done].
Qed.

Lemma length_draw_maze m h w :
  grid_dims m h w → length (draw_maze m) = Z.to_nat (h * w).
Proof.
  intros [<- Hw]. destruct m as [|row0 m']; [done|].
  assert (0 ≤ w) by (apply Forall_cons in Hw as [<- _]; lia).
  unfold draw_maze. rewrite (length_draw_rows _ (Z.to_nat w)).
  - rewrite Z2Nat.inj_mul, Nat2Z.id by lia. done.
  - intros. apply length_imap.
  - eapply Forall_impl; [done|]. simpl. lia.
Qed.

Lemma cell_rect_inside h w p :
  0 ≤ CELL_SIZE cfg → 0 ≤ p.1 < h → 0 ≤ p.2 < w →
  rect_inside (cell_rect p.1 p.2) (w * CELL_SIZE cfg) (h * CELL_SIZE cfg).
Proof. unfold rect_inside, cell_rect. simpl. nia. Qed.

(** The glow reaches 2 pixels past the cell on every side, so it needs a
    cell that is not on the border and cells of at least 2 pixels. *)
Lemma glow_rect_inside h w p :
  2 ≤ CELL_SIZE cfg → in_bounds h w p →
  rect_inside (glow_rect p) (w * CELL_SIZE cfg) (h * CELL_SIZE cfg).
Proof. unfold rect_inside, glow_rect, in_bounds. simpl. nia. Qed.

Lemma elem_of_rects_of (cs : list cmd) r :
  r ∈ rects_of cs ↔ ∃ col w b, DrawRect col r w b ∈ cs.
Proof.
  unfold rects_of. rewrite list_elem_of_omap. split.
  - intros ([] & Hd & [= <-]); eauto.
  - intros (col & w & b & Hd). eauto.
Qed.

Lemma rects_of_app (cs1 cs2 : list cmd) : rects_of (cs1 ++ cs2) = rects_of cs1 ++ rects_of cs2.
Proof. apply omap_app. Qed.

Lemma draw_maze_inside m :
  grid_dims m (HEIGHT cfg) (WIDTH cfg) → 0 ≤ CELL_SIZE cfg →
  Forall (λ r, rect_inside r (SCREEN_WIDTH cfg) (SCREEN_HEIGHT cfg)) (rects_of (draw_maze m)).
Proof.
  intros Hdims Hcs. apply Forall_forall. intros r (col & w & b & Hd)%elem_of_rects_of.
  apply elem_of_draw_maze in Hd as (p & c' & Hp & [= _ -> _ _]).
  apply cell_rect_inside; [done|..];
    apply (grid_dims_cell_at _ _ _ _ Hdims); by rewrite Hp.
Qed.

(** The cell a coordinate falls in. *)
Lemma cell_index (a x cs : Z) : 0 < cs → a * cs ≤ x ∧ x < a * cs + cs ↔ a = x `div` cs.
Proof.
  intros Hcs. split.
  - intros [? ?]. apply (Z.div_unique x cs a (x - a * cs)); lia.
  - intros ->. pose proof (Z.div_mod x cs). pose proof (Z.mod_pos_bound x cs). lia.
Qed.

Lemma cell_rect_contains row col px py :
  0 < CELL_SIZE cfg →
  rect_contains (cell_rect row col) px py ↔
  col = px `div` CELL_SIZE cfg ∧ row = py `div` CELL_SIZE cfg.
Proof.
  intros Hcs. unfold rect_contains, cell_rect. simpl. by rewrite !cell_index.
Qed.

(** C30: the squares of [draw_maze] tile the screen: every pixel of the
    screen is painted by exactly one of its calls, the one for the cell
    in row [py // CELL_SIZE] and column [px // CELL_SIZE]. *)
Theorem draw_maze_tiles m px py :
  grid_dims m (HEIGHT cfg) (WIDTH cfg) → 0 < CELL_SIZE cfg →
  0 ≤ px < SCREEN_WIDTH cfg → 0 ≤ py < SCREEN_HEIGHT cfg →
  let r := cell_rect (py `div` CELL_SIZE cfg) (px `div` CELL_SIZE cfg) in
  r ∈ rects_of (draw_maze m) ∧ rect_contains r px py ∧
  ∀ r', r' ∈ rects_of (draw_maze m) → rect_contains r' px py → r' = r.
Proof.
  intros Hdims Hcs Hx Hy r. unfold SCREEN_WIDTH, SCREEN_HEIGHT in *.
  split; [|split; [by apply cell_rect_contains|]].
  - destruct (proj2 (grid_dims_cell_at m _ _
        (py `div` CELL_SIZE cfg, px `div` CELL_SIZE cfg) Hdims)) as [c Hc].
    { simpl. split; (split; [apply Z.div_pos | apply Z.div_lt_upper_bound]; lia). }
    apply elem_of_rects_of. eexists _, _, _. apply elem_of_draw_maze.
    by exists (py `div` CELL_SIZE cfg, px `div` CELL_SIZE cfg), c.
  - intros r' (col & w & b & Hd)%elem_of_rects_of Hin.
    apply elem_of_draw_maze in Hd as (p & c & _ & [= _ -> _ _]).
    by apply cell_rect_contains in Hin as [-> ->].
Qed.

(** C29: [draw_maze] issues one call per cell of the grid; the call for
    the cell in row [p.1] and column [p.2] paints the square at
    [(p.2 * CELL_SIZE, p.1 * CELL_SIZE)] (the column is the horizontal
    coordinate) in [PATH_COLOR] when the cell is open and in [WALL_COLOR]
    otherwise, and nothing else is drawn. *)
Theorem draw_maze_spec m h w :
  grid_dims m h w →
  length (draw_maze m) = Z.to_nat (h * w) ∧
  ∀ d, d ∈ draw_maze m ↔
       ∃ p c, cell_at m p = Some c ∧
              d = DrawRect (cell_color c) (cell_rect p.1 p.2) None None.
Proof. intros Hdims. split; [by apply length_draw_maze | apply elem_of_draw_maze]. Qed.

(** C28: every rectangle a frame draws lies on the screen: the squares of
    the cells and, because neither the player nor the exit is ever on the
    border, their glow rectangles, which reach 2 pixels past their cell
    (this needs cells of at least 2 pixels). *)
Theorem draw_scene_inside g :
  settings_ok cfg → game_ok cfg g → 2 ≤ CELL_SIZE cfg →
  Forall (λ r, rect_inside r (SCREEN_WIDTH cfg) (SCREEN_HEIGHT cfg))
         (rects_of (draw_scene g)).
Proof.
  intros Hcfg Hok Hcs. pose proof (exit_in_bounds cfg Hcfg) as Hexit.
  assert (in_bounds (HEIGHT cfg) (WIDTH cfg) (player_pos g)) as Hplayer
    by apply (ok_enclosed _ _ Hok), (ok_player _ _ Hok).
  rewrite <-(ok_exit _ _ Hok) in Hexit.
  unfold draw_scene. simpl. rewrite !rects_of_app. simpl.
  rewrite Forall_app. split; [apply draw_maze_inside; [apply Hok | lia]|].
  repeat apply Forall_cons_2; try apply Forall_nil_2;
    (apply glow_rect_inside; [lia|done]) || (apply cell_rect_inside; [lia|..]);
    unfold in_bounds in *; lia.
Qed.

(** C38: the text is centred on the screen, [offset_y] pixels below the
    middle, to within half a pixel (twice its left edge plus its width
    exceeds twice the centre by at most 1, and likewise vertically), and
    its shadow is drawn first, 4 pixels down and to the right. *)
Theorem display_text_with_shadow_centered `{TextMetrics} message f col shadow_color offset_y :
  ∃ x y,
    display_text_with_shadow message f col shadow_color offset_y =
      [Blit (Text message f shadow_color) (x + 4) (y + 4); Blit (Text message f col) x y] ∧
    0 ≤ 2 * x + (text_size f message).1 - 2 * (SCREEN_WIDTH cfg `div` 2) ≤ 1 ∧
    0 ≤ 2 * y + (text_size f message).2 - 2 * (SCREEN_HEIGHT cfg `div` 2 + offset_y) ≤ 1.
Proof.
  eexists _, _. split; [reflexivity|]. simpl.
  generalize (SCREEN_WIDTH cfg `div` 2), (SCREEN_HEIGHT cfg `div` 2). intros a b.
  split; Z.div_mod_to_equations; lia.
Qed.

End drawing.

(** ** Witnesses *)

Lemma draw_maze_spec_witness :
  length (draw_maze maze_game_settings [[Wall; Open]; [Wall; Wall]]) = Z.to_nat (2 * 2) ∧
  ∀ d, d ∈ draw_maze maze_game_settings [[Wall; Open]; [Wall; Wall]] ↔
       ∃ p c, cell_at [[Wall; Open]; [Wall; Wall]] p = Some c ∧
              d = DrawRect (cell_color c) (cell_rect maze_game_settings p.1 p.2) None None.
Proof. apply draw_maze_spec. by apply (bool_decide_unpack _). Defined.

Lemma draw_maze_tiles_witness :
  let r := cell_rect corridor_settings (25 `div` 20) (70 `div` 20) in
  r ∈ rects_of (draw_maze corridor_settings corridor) ∧ rect_contains r 70 25 ∧
  ∀ r', r' ∈ rects_of (draw_maze corridor_settings corridor) →
        rect_contains r' 70 25 → r' = r.
Proof.
  apply (draw_maze_tiles corridor_settings corridor 70 25);
    [by apply (bool_decide_unpack _) | done..].
Defined.

Lemma draw_scene_inside_witness :
  Forall (λ r, rect_inside r (SCREEN_WIDTH corridor_settings) (SCREEN_HEIGHT corridor_settings))
         (rects_of (draw_scene corridor_settings corridor_game)).
Proof.
  apply draw_scene_inside;
    [exact corridor_settings_ok | exact corridor_game_ok | simpl; lia].
Defined.
