(* ===== verification/Session.v ===== *)
(** * The main loop

    One iteration of [while True:] in [src/maze_game.py] (lines 150-223)
    is [frame]: drain the event queue, update the game while it is being
    played, draw, and leave the program on a quit event or after the win
    message.  [run] iterates it over the inputs of successive frames.  The
    phases of the specification ([AwaitingStart], [Playing], [Won]) are
    read off the two flags of the state, and the theorems relate the
    frames to the transitions between them. *)

From stdpp Require Import base tactics option list numbers strings sets relations.
From S2P Require Import Prelude PyList Grid Random Lattice DfsSpec Generator Game.
From S2P Require Import Movement Winnable Render.

#[local] Open Scope Z_scope.

(** [event.type], as far as the loop distinguishes it. *)
Inductive event : Set :=
| QUIT
| KEYDOWN
| OTHER.

#[export] Instance event_eq_dec : EqDecision event.
Proof. solve_decision. Defined.

(** What one iteration reads: the events queued since the last one, the
    keys held and the clock. *)
Record frame_input : Type := FrameInput {
  events : list event;
  pressed : keys;
  now : Z;
}.

(** How an iteration ends: the loop goes on, or [sys.exit()] was called. *)
Inductive outcome : Type :=
| Continue (g : game)
| Exit.

(** The phases of the specification. *)
Inductive phase : Set :=
| AwaitingStart
| Playing
| Won.

#[export] Instance phase_eq_dec : EqDecision phase.
Proof. solve_decision. Defined.

Definition phase_of (g : game) : phase :=
  if display_start_message g then AwaitingStart
  else if game_won g then Won else Playing.

(** The transitions the specification allows between two iterations. *)
Inductive phase_step : phase → phase → Prop :=
| phase_stay ph : phase_step ph ph
| phase_start : phase_step AwaitingStart Playing
| phase_win : phase_step Playing Won.

(** Lines 151-156: [None] is [pygame.quit(); sys.exit()]. *)
Fixpoint handle_events (evs : list event) (g : game) : option game :=
  match evs with
  | [] => Some g
  | QUIT :: _ => None
  | e :: evs' =>
      handle_events evs'
        (if display_start_message g && bool_decide (e = KEYDOWN)
         then with_display_start_message false g else g)
  end.

Section session.
Context `{TextMetrics} (cfg : settings).

(** Lines 205-215. *)
Definition start_messages : list cmd :=
  display_text_with_shadow cfg "Press any key to start" font_small TEXT_COLOR
    SHADOW_COLOR (-40) ++
  display_text_with_shadow cfg "Navigate to the red square to win" font_small
    TEXT_COLOR SHADOW_COLOR 0.

(** Lines 198-223: the calls of the drawing part of an iteration, and how
    the iteration ends. *)
Definition render (g : game) : list cmd * outcome :=
  let scene := draw_scene cfg g in
  if display_start_message g then
    (scene ++ start_messages ++ [Flip], Continue g)
  else if game_won g then
    (scene ++ display_win_message cfg ++ [Flip; Wait 2000; Quit], Exit)
  else (scene ++ [Flip], Continue g).

(** Lines 150-223, one iteration of the loop. *)
Definition frame (i : frame_input) (g : game) : result (list cmd * outcome) :=
  match handle_events (events i) g with
  | None => Ok ([Quit], Exit)
  | Some g1 =>
      g2 ← tick cfg (pressed i) (now i) g1;
      Ok (render g2)
  end.

(** The loop over the inputs of successive iterations: the calls made, in
    order, and the state it stops in when the inputs run out before
    [sys.exit()]. *)
Fixpoint run (inputs : list frame_input) (g : game) : result (list cmd * outcome) :=
  match inputs with
  | [] => Ok ([], Continue g)
  | i :: inputs' =>
      '(cs, o) ← frame i g;
      match o with
      | Exit => Ok (cs, Exit)
      | Continue g' => '(cs', o') ← run inputs' g'; Ok (cs ++ cs', o')
      end
  end.

(** The frames without events that sample the given keys and clock. *)
Definition quiet (inputs : list (keys * Z)) : list frame_input :=
  (λ i, FrameInput [] i.1 i.2) <$> inputs.

(** ** Lemmas *)

Implicit Types (g : game) (evs : list event) (i : frame_input).

(** The event loop as a function of the set of events: a quit event
    anywhere in the queue exits; otherwise a key press anywhere in it
    dismisses the start message. *)
Lemma handle_events_spec evs g :
  handle_events evs g =
  if decide (QUIT ∈ evs) then None
  else Some (if display_start_message g && bool_decide (KEYDOWN ∈ evs)
             then with_display_start_message false g else g).
Proof.
  revert g. induction evs as [|e evs IH]; intros g.
  - rewrite decide_False by set_solver. simpl. by rewrite andb_false_r.
  - destruct e; cbn [handle_events]; [by rewrite decide_True by set_solver|..];
      rewrite IH, (decide_ext (QUIT ∈ _ :: evs) (QUIT ∈ evs)) by set_solver;
      case_decide; try done; f_equal.
    + rewrite (bool_decide_eq_true_2 (KEYDOWN = KEYDOWN)) by done.
      rewrite (bool_decide_eq_true_2 (KEYDOWN ∈ KEYDOWN :: evs)) by set_solver.
      by destruct (display_start_message g) eqn:Hs; simpl; rewrite ?Hs.
    + rewrite (bool_decide_eq_false_2 (OTHER = KEYDOWN)) by done.
      rewrite andb_false_r.
      by rewrite (bool_decide_ext (KEYDOWN ∈ OTHER :: evs) (KEYDOWN ∈ evs)) by set_solver.
Qed.

Lemma with_display_start_message_ok g b :
  game_ok cfg g → game_ok cfg (with_display_start_message b g).
Proof. by intros []. Qed.

Lemma handle_events_ok evs g g1 :
  handle_events evs g = Some g1 →
  (game_ok cfg g → game_ok cfg g1) ∧ game_won g1 = game_won g ∧ maze g1 = maze g ∧
  (display_start_message g1 = true → g1 = g).
Proof.
  rewrite handle_events_spec. case_decide; [done|]. intros [= <-].
  destruct (display_start_message g) eqn:Hs; simpl; [|by rewrite Hs].
  case_bool_decide; simpl; [|by rewrite Hs].
  by split; [apply with_display_start_message_ok|].
Qed.

Lemma render_outcome g :
  (render g).2 =
  if negb (display_start_message g) && game_won g then Exit else Continue g.
Proof. unfold render. by destruct (display_start_message g), (game_won g). Qed.

(** The calls that show the win and leave the program. *)
Definition win_exit (g : game) : list cmd :=
  draw_scene cfg g ++ display_win_message cfg ++ [Flip; Wait 2000; Quit].

Lemma render_Exit g cs :
  render g = (cs, Exit) ↔
  display_start_message g = false ∧ game_won g = true ∧ cs = win_exit g.
Proof.
  unfold render, win_exit.
  destruct (display_start_message g), (game_won g); naive_solver.
Qed.

Lemma render_Continue g cs g' : render g = (cs, Continue g') → g' = g.
Proof.
  unfold render. by destruct (display_start_message g), (game_won g); intros [= _ <-].
Qed.

Section frames.
Context (Hcfg : settings_ok cfg).

(** Under the invariant an iteration raises nothing. *)
Lemma frame_eq i g :
  game_ok cfg g →
  frame i g =
  Ok (match handle_events (events i) g with
      | None => ([Quit], Exit)
      | Some g1 => render (tick_spec cfg (pressed i) (now i) g1)
      end).
Proof.
  intros Hok. unfold frame. destruct (handle_events (events i) g) as [g1|] eqn:He; [|done].
  rewrite tick_eq_spec; [done|]. by eapply handle_events_ok.
Qed.

(** An iteration that goes on keeps the invariant, has not won, and has
    made one of the transitions of the specification. *)
Lemma frame_Continue i g cs g' :
  game_ok cfg g → game_won g = false → frame i g = Ok (cs, Continue g') →
  game_ok cfg g' ∧ game_won g' = false ∧ maze g' = maze g ∧
  phase_step (phase_of g) (phase_of g').
Proof.
  intros Hok Hwon. rewrite frame_eq by done.
  destruct (handle_events (events i) g) as [g1|] eqn:He; [|done].
  apply handle_events_ok in He as (Hok1 & Hwon1 & Hm1 & Hs1).
  intros [= Hr]. pose proof (render_Continue _ _ _ Hr) as ->.
  pose proof (render_outcome (tick_spec cfg (pressed i) (now i) g1)) as Ho.
  rewrite Hr in Ho. simpl in Ho. rewrite tick_spec_start in Ho.
  split; [by apply tick_spec_ok, Hok1|]. rewrite tick_spec_maze.
  unfold phase_of. rewrite tick_spec_start, Hwon.
  destruct (display_start_message g1) eqn:Hd1.
  - rewrite (Hs1 eq_refl) in *. unfold tick_spec. rewrite Hd1, andb_false_r.
    by repeat split; try constructor.
  - destruct (game_won (tick_spec _ _ _ g1)); [done|].
    repeat split; try done. destruct (display_start_message g); constructor.
Qed.

(** C17: a quit event ends the program at once, whatever the state and
    whatever else is queued after it: nothing is updated or drawn, and the
    only call is [pygame.quit()]. *)
Theorem frame_quit i g : QUIT ∈ events i → frame i g = Ok ([Quit], Exit).
Proof. intros Hq. unfold frame. by rewrite handle_events_spec, decide_True. Qed.

(** C31: while the start message is shown and no key is pressed, an
    iteration changes nothing: it ignores the held keys and the clock,
    and redraws the scene, the two lines of the start message and flips
    the display. *)
Theorem frame_awaiting i g :
  display_start_message g = true → QUIT ∉ events i → KEYDOWN ∉ events i →
  frame i g = Ok (draw_scene cfg g ++ start_messages ++ [Flip], Continue g).
Proof.
  intros Hs Hq Hk. unfold frame. rewrite handle_events_spec, decide_False by done.
  rewrite bool_decide_eq_false_2, andb_false_r by done. unfold tick.
  rewrite Hs, andb_false_r. simpl. unfold render. by rewrite Hs.
Qed.

(** C16: the first key press starts the game, and the iteration that
    sees it already plays: it runs the update on the state with the start
    message cleared (so a held arrow key moves the player at once when
    more than [move_delay] milliseconds have passed since start-up) and
    draws the result. *)
Theorem frame_first_key i g :
  game_ok cfg g → game_won g = false → display_start_message g = true →
  QUIT ∉ events i → KEYDOWN ∈ events i →
  frame i g =
  Ok (render (update_spec cfg (pressed i) (now i) (with_display_start_message false g))).
Proof.
  intros Hok Hw Hs Hq Hk. rewrite frame_eq, handle_events_spec, decide_False by done.
  rewrite Hs, bool_decide_eq_true_2 by done. simpl. unfold tick_spec. simpl. by rewrite Hw.
Qed.

(** C15: an iteration leaves the program in exactly two ways: on a quit
    event, with no drawing, or because the update of this very iteration
    found the player on the exit, in which case it draws the scene and
    the win message, flips the display, waits 2000 milliseconds and
    quits. *)
Theorem frame_exit i g cs :
  game_ok cfg g → game_won g = false → frame i g = Ok (cs, Exit) →
  (QUIT ∈ events i ∧ cs = [Quit]) ∨
  ((QUIT ∉ events i) ∧
   ∃ g', player_pos g' = exit_pos g' ∧ game_won g' = true ∧ maze g' = maze g ∧
         cs = win_exit g').
Proof.
  intros Hok Hwon. rewrite frame_eq by done.
  destruct (handle_events (events i) g) as [g1|] eqn:He.
  - intros [= (Hs & Hw & ->)%render_Exit]. right.
    split; [intros Hq; by rewrite handle_events_spec, decide_True in He|].
    apply handle_events_ok in He as (_ & Hw1 & Hm1 & _).
    exists (tick_spec cfg (pressed i) (now i) g1).
    rewrite tick_spec_exit, tick_spec_maze. split; [|done].
    rewrite tick_spec_won, Hw1, Hwon in Hw. simpl in Hw.
    by apply andb_prop in Hw as [_ Hp%bool_decide_eq_true].
  - intros [= <-]. left. split; [|done].
    destruct (decide (QUIT ∈ events i)); [done|].
    by rewrite handle_events_spec, decide_False in He.
Qed.

(** A frame without events in a state that is being played. *)
Lemma frame_quiet k t g :
  game_ok cfg g →
  frame (FrameInput [] k t) g = Ok (render (tick_spec cfg k t g)).
Proof. intros Hok. by rewrite frame_eq. Qed.

(** C9: safety of the whole session.  From a state of the invariant that
    is not won, any number of iterations on any inputs raises nothing;
    when the loop is still running the invariant holds, the maze is
    unchanged, the game is not won, and the phase has moved along the
    transitions of the specification. *)
Theorem run_safe inputs g :
  game_ok cfg g → game_won g = false →
  ∃ cs o, run inputs g = Ok (cs, o) ∧
          ∀ g', o = Continue g' →
                game_ok cfg g' ∧ game_won g' = false ∧ maze g' = maze g ∧
                rtc phase_step (phase_of g) (phase_of g').
Proof.
  revert g. induction inputs as [|i inputs IH]; intros g Hok Hwon; simpl.
  { eexists _, _. split; [reflexivity|]. by intros ? [= <-]. }
  destruct (frame i g) as [[cs [g1|]]|e] eqn:Hf; simpl.
  - destruct (frame_Continue i g cs g1 Hok Hwon Hf) as (Hok1 & Hwon1 & Hm1 & Hp1).
    destruct (IH g1 Hok1 Hwon1) as (cs' & o' & -> & Hrest). simpl.
    eexists _, _. split; [reflexivity|]. intros g' ->.
    destruct (Hrest g' eq_refl) as (? & ? & ? & ?).
    split; [done|]. split; [done|]. split; [congruence|by eapply rtc_l].
  - eexists _, _. split; [reflexivity|]. by intros.
  - by rewrite frame_eq in Hf.
Qed.

(** Frames without events replay a run of the update. *)
Lemma run_quiet_wins inputs g g' :
  game_ok cfg g → game_won g = false → display_start_message g = false →
  ticks cfg inputs g = Ok g' → game_won g' = true →
  ∃ cs, run (quiet inputs) g = Ok (cs, Exit) ∧ Wait 2000 ∈ cs.
Proof.
  revert g. induction inputs as [|[k t] inputs IH]; intros g Hok Hwon Hs; simpl.
  { intros [= <-]. congruence. }
  rewrite tick_eq_spec, frame_quiet by done. simpl. intros Hrun Hw'.
  destruct (render (tick_spec cfg k t g)) as [cs [g1|]] eqn:Hr; simpl.
  - pose proof (render_Continue _ _ _ Hr) as ->.
    pose proof (render_outcome (tick_spec cfg k t g)) as Ho. rewrite Hr in Ho. simpl in Ho.
    rewrite tick_spec_start, Hs in Ho. simpl in Ho.
    destruct (game_won (tick_spec cfg k t g)) eqn:Hw1; [done|].
    destruct (IH _ (tick_spec_ok cfg Hcfg g k t Hok) Hw1) as (cs' & -> & Hin);
      [by rewrite tick_spec_start | done..|].
    simpl. eexists. split; [reflexivity|]. set_solver.
  - apply render_Exit in Hr as (_ & _ & ->). eexists. split; [reflexivity|].
    unfold win_exit. set_solver.
Qed.

(** The key press that dismisses the start message. *)
Lemma run_first_key k t inputs g :
  display_start_message g = true →
  run (FrameInput [KEYDOWN] k t :: inputs) g =
  run (FrameInput [] k t :: inputs) (with_display_start_message false g).
Proof. intros Hs. simpl. unfold frame. simpl. by rewrite Hs. Qed.

(** C4: liveness of the whole program.  When the width or the height is
    odd, for every random source there are inputs on which the session,
    from the state start-up builds, shows the win message, waits 2000
    milliseconds and exits. *)
Theorem session_winnable `{RandomSource R} (fuel : nat) (rng : R) (t0 : Z) :
  (gen_fuel (WIDTH cfg) (HEIGHT cfg) ≤ fuel)%nat →
  WIDTH cfg `mod` 2 = 1 ∨ HEIGHT cfg `mod` 2 = 1 →
  ∃ g inputs cs,
    startup cfg fuel rng t0 = Some (Ok g) ∧
    run inputs g = Ok (cs, Exit) ∧ Wait 2000 ∈ cs.
Proof.
  intros Hfuel Hodd.
  destruct (startup_eq cfg Hcfg fuel rng t0 Hfuel) as (m & Hdims & Hperf & ->).
  pose proof (start_game_ok cfg Hcfg t0 m Hdims Hperf) as Hok.
  apply (with_display_start_message_ok _ false) in Hok.
  destruct (winnable_path cfg Hcfg _ _ _ (start_game_linked cfg Hcfg t0 m Hdims Hperf Hodd)
              _ Hok) as (inputs & g' & Hrun & Hw); [done..|].
  destruct (run_quiet_wins inputs _ g' Hok) as (cs & Hcs & Hin); [done..|].
  destruct inputs as [|[k t] inputs]; [by simplify_eq/=|].
  exists (start_game cfg t0 m), (FrameInput [KEYDOWN] k t :: quiet inputs), cs.
  by rewrite run_first_key.
Qed.

End frames.

End session.

(** ** Witnesses, with every character half as wide as the font is high *)

Section witnesses.
#[local] Existing Instance monospace_metrics.

Lemma frame_quit_witness :
  frame corridor_settings (FrameInput [KEYDOWN; QUIT; KEYDOWN] (only RIGHT) 250) corridor_game =
  Ok ([Quit], Exit).
Proof. apply frame_quit. simpl. set_solver. Defined.

Lemma frame_awaiting_witness :
  frame corridor_settings (FrameInput [OTHER] (only RIGHT) 250)
    (with_display_start_message true corridor_game) =
  Ok (draw_scene corridor_settings (with_display_start_message true corridor_game) ++
      start_messages corridor_settings ++ [Flip],
      Continue (with_display_start_message true corridor_game)).
Proof. apply frame_awaiting; simpl; [done|set_solver..]. Defined.

Lemma frame_first_key_witness :
  frame corridor_settings (FrameInput [KEYDOWN] (only RIGHT) 250)
    (with_display_start_message true corridor_game) =
  Ok (render corridor_settings
        (update_spec corridor_settings (only RIGHT) 250
           (with_display_start_message false (with_display_start_message true corridor_game)))).
Proof.
  apply frame_first_key; simpl; try done; [|set_solver..].
  by apply (bool_decide_unpack _).
Defined.

Lemma frame_exit_witness :
  (QUIT ∈ [] ∧
   win_exit corridor_settings
     (update_spec corridor_settings (only RIGHT) 250 (with_player_pos (1, 2) corridor_game)) =
   [Quit]) ∨
  ((QUIT ∉ []) ∧
   ∃ g', player_pos g' = exit_pos g' ∧ game_won g' = true ∧ maze g' = corridor ∧
         win_exit corridor_settings
           (update_spec corridor_settings (only RIGHT) 250
              (with_player_pos (1, 2) corridor_game)) =
         win_exit corridor_settings g').
Proof.
  apply (frame_exit corridor_settings
           (FrameInput [] (only RIGHT) 250) (with_player_pos (1, 2) corridor_game));
    [by apply (bool_decide_unpack _) | done | reflexivity].
Defined.

Lemma run_safe_witness :
  ∃ cs o,
    run corridor_settings
      [FrameInput [] (only RIGHT) 250; FrameInput [] (only LEFT) 500] corridor_game =
    Ok (cs, o) ∧
    ∀ g', o = Continue g' →
          game_ok corridor_settings g' ∧ game_won g' = false ∧ maze g' = corridor ∧
          rtc phase_step (phase_of corridor_game) (phase_of g').
Proof.
  apply (run_safe corridor_settings corridor_settings_ok); [exact corridor_game_ok | done].
Defined.

Lemma session_winnable_witness :
  ∃ g inputs cs,
    startup maze_game_settings (gen_fuel 21 21) 42%N 0 = Some (Ok g) ∧
    run maze_game_settings inputs g = Ok (cs, Exit) ∧ Wait 2000 ∈ cs.
Proof.
  apply (session_winnable maze_game_settings maze_game_settings_ok); [done | by left].
Defined.

End witnesses.
